(** * Fleet scheduling and buffer simulation (app.py)

    A shallow embedding of the scheduling core of [src/app.py]:
    [Leg], [Route], [VoyageScheduler], [TankSimulation], the summary
    metrics computed by [export_to_excel], [export_to_pdf] and the first
    tab of the Streamlit page, and the data that the tables and the
    charts are made of.

    Conventions of the embedding.
    - Python numbers ([int] and [float] values used as day counts, volumes
      and levels) are exact rationals [Q]; NaN and infinities are outside
      the model.  The rounding of [float] additions matters for one
      property, the conservation of volume: there the replay loop is also
      given in binary64 arithmetic ([Binary64], [replay_float]).  Integers
      that are [int] in the source ([ship_id], [num_ships], [leg_no],
      [.days]) are [Z].
    - A naive [datetime] is the number of microseconds elapsed since
      [datetime.min] (0001-01-01T00:00:00), a [timedelta] is a number of
      microseconds.  Both carry the range checks of the [datetime] module:
      leaving the range raises [OverflowError].
    - Exceptions are values of the type [exception]; a computation that may
      raise lives in the monad [result]. *)

From Stdlib Require Import ZArith QArith Qminmax List Bool Lia Lqa.
From Stdlib Require Import String Ascii DecimalString DecimalPos DecimalZ.
From Stdlib Require Import Permutation Sorted SpecFloat.
Import ListNotations.

Local Open Scope Z_scope.

(* ================================================================== *)
(** ** Exceptions *)

Module Py.

(** The built-in exceptions the modelled code can raise. *)
Inductive exception : Set :=
| IndexError      (* list index out of range *)
| ValueError      (* max()/min() of an empty sequence *)
| OverflowError.  (* date value out of range, timedelta out of range *)

Inductive result (A : Type) : Type :=
| Ok (a : A)
| Raise (e : exception).

Arguments Ok {A} a.
Arguments Raise {A} e.

Definition bind {A B : Type} (m : result A) (k : A -> result B) : result B :=
  match m with
  | Ok a => k a
  | Raise e => Raise e
  end.

Notation "x <- m ;; k" := (bind m (fun x => k))
  (at level 61, m at next level, right associativity).

(** A [for] loop whose body may raise and that appends one value per
    iteration; the first exception aborts the loop. *)
Fixpoint for_each {A B : Type} (f : A -> result B) (l : list A)
  : result (list B) :=
  match l with
  | [] => Ok []
  | x :: l' =>
      y <- f x ;;
      ys <- for_each f l' ;;
      Ok (y :: ys)
  end.

(** [l[0]] *)
Definition first_item {A : Type} (l : list A) : result A :=
  match l with
  | [] => Raise IndexError
  | x :: _ => Ok x
  end.

(** [l[-1]] *)
Fixpoint last_item {A : Type} (l : list A) : result A :=
  match l with
  | [] => Raise IndexError
  | [x] => Ok x
  | _ :: l' => last_item l'
  end.

(** [range(1, n + 1)] *)
Definition range1 (n : Z) : list Z :=
  map Z.of_nat (seq 1 (Z.to_nat n)).

(** [x > y] on numbers. *)
Definition Qgtb (x y : Q) : bool := negb (Qle_bool x y).
(** [x < y] on numbers. *)
Definition Qltb (x y : Q) : bool := negb (Qle_bool y x).

(** [max(l)] on a list: the first maximal item; [ValueError] when empty. *)
Definition max_Q (l : list Q) : result Q :=
  match l with
  | [] => Raise ValueError
  | x :: l' => Ok (fold_left (fun m y => if Qgtb y m then y else m) l' x)
  end.

(** [min(l)] on a list: the first minimal item; [ValueError] when empty. *)
Definition min_Q (l : list Q) : result Q :=
  match l with
  | [] => Raise ValueError
  | x :: l' => Ok (fold_left (fun m y => if Qltb y m then y else m) l' x)
  end.

(** [max(l)] on a list of integers. *)
Definition max_Z (l : list Z) : result Z :=
  match l with
  | [] => Raise ValueError
  | x :: l' => Ok (fold_left (fun m y => if y >? m then y else m) l' x)
  end.

(** [str(n)] for an integer. *)
Definition str_int (n : Z) : string := NilZero.string_of_int (Z.to_int n).

End Py.

Import Py.

(* ================================================================== *)
(** ** datetime and timedelta *)

Module Datetime.

Definition datetime := Z.
Definition timedelta := Z.

(** Microseconds per day. *)
Definition US_PER_DAY : Z := 86400000000.

(** [timedelta.max.days]: a timedelta holds at most this many days. *)
Definition MAX_DELTA_DAYS : Z := 999999999.

(** [date.max.toordinal()]: the number of days from 0001-01-01 to
    9999-12-31, both included. *)
Definition MAX_ORDINAL : Z := 3652059.

(** [td.days]: timedeltas are normalised with [0 <= seconds < 86400] and
    [0 <= microseconds < 10**6], so [days] is the floor of the quotient. *)
Definition days (td : timedelta) : Z := td / US_PER_DAY.

(** Rounding of a rational to the nearest integer, ties to even, as the
    [timedelta] constructor rounds a fractional number of microseconds. *)
Definition round_half_even (q : Q) : Z :=
  let n := Qnum q in
  let d := Zpos (Qden q) in
  let f := n / d in
  match 2 * (n mod d) ?= d with
  | Lt => f
  | Gt => f + 1
  | Eq => if Z.even f then f else f + 1
  end.

Definition valid_timedelta (td : timedelta) : bool :=
  (- MAX_DELTA_DAYS <=? days td) && (days td <=? MAX_DELTA_DAYS).

Definition valid_datetime (t : datetime) : bool :=
  (0 <=? t) && (t <? MAX_ORDINAL * US_PER_DAY).

(** [timedelta(days=x)] *)
Definition timedelta_days (x : Q) : result timedelta :=
  let td := round_half_even (x * inject_Z US_PER_DAY) in
  if valid_timedelta td then Ok td else Raise OverflowError.

(** [t + td] *)
Definition add (t : datetime) (td : timedelta) : result datetime :=
  if valid_datetime (t + td) then Ok (t + td) else Raise OverflowError.

(** [t1 - t2]: the difference of two datetimes always fits a timedelta. *)
Definition sub (t1 t2 : datetime) : timedelta := t1 - t2.

(** [datetime(y, m, d)] for the dates used in examples, through the
    proleptic Gregorian ordinal. *)
Definition days_before_year (y : Z) : Z :=
  let y' := y - 1 in y' * 365 + y' / 4 - y' / 100 + y' / 400.

Definition is_leap (y : Z) : bool :=
  (y mod 4 =? 0) && (negb (y mod 100 =? 0) || (y mod 400 =? 0)).

Definition days_before_month (y m : Z) : Z :=
  let cum := nth (Z.to_nat (m - 1))
                 [0; 31; 59; 90; 120; 151; 181; 212; 243; 273; 304; 334] 0 in
  if (2 <? m) && is_leap y then cum + 1 else cum.

Definition ymd (y m d : Z) : datetime :=
  (days_before_year y + days_before_month y m + d - 1) * US_PER_DAY.

End Datetime.

(* ================================================================== *)
(** ** Legs, routes and the voyage scheduler *)

(** [class Leg] *)
Record Leg : Type := mkLeg {
  leg_name : string;
  leg_port_from : string;
  leg_port_to : string;
  duration_days : Q;
  operation_days : Q
}.

(** [class Route] *)
Record Route : Type := mkRoute {
  route_name : string;
  legs : list Leg;
  ship_capacity : Q
}.

(** [Route.get_ports]: [self.legs[0]] raises on a route without legs. *)
Definition get_ports (r : Route) : result (list string) :=
  l0 <- first_item (legs r) ;;
  Ok (leg_port_from l0 :: map leg_port_to (legs r)).

(** One entry of a voyage's ["itinerary"] list. *)
Record Stop : Type := mkStop {
  leg_no : Z;
  leg : string;
  port_from : string;
  port_to : string;
  departure : Datetime.datetime;
  arrival : Datetime.datetime;
  operation_end : Datetime.datetime;
  voyage_time_days : Q;
  stop_operation_days : Q
}.

(** The voyage dictionary returned by [_calculate_voyage]. *)
Record Voyage : Type := mkVoyage {
  ship_id : Z;
  route : string;
  ship_name : string;
  capacity : Q;
  itinerary : list Stop;
  total_voyage_time : Z;
  arrival_final : Datetime.datetime
}.

(** The body of the loop [for i, leg in enumerate(self.route.legs)]:
    from index [i] and [current_time], the stops of the remaining legs
    and the value of [current_time] when the loop ends. *)
Fixpoint walk_legs (i : Z) (current_time : Datetime.datetime) (ls : list Leg)
  : result (list Stop * Datetime.datetime) :=
  match ls with
  | [] => Ok ([], current_time)
  | l :: ls' =>
      let leg_start := current_time in
      td1 <- Datetime.timedelta_days (duration_days l) ;;
      arr <- Datetime.add leg_start td1 ;;
      td2 <- Datetime.timedelta_days (operation_days l) ;;
      leg_end <- Datetime.add arr td2 ;;
      let stop := mkStop (i + 1) (leg_name l) (leg_port_from l) (leg_port_to l)
                         leg_start arr leg_end
                         (duration_days l) (operation_days l) in
      rest <- walk_legs (i + 1) leg_end ls' ;;
      Ok (stop :: fst rest, snd rest)
  end.

(** [VoyageScheduler._calculate_voyage] *)
Definition _calculate_voyage (r : Route) (sid : Z) (dep : Datetime.datetime)
  : result Voyage :=
  w <- walk_legs 0 dep (legs r) ;;
  let current_time := snd w in
  Ok (mkVoyage sid (route_name r) ("Ship_" ++ str_int sid) (ship_capacity r)
               (fst w)
               (Datetime.days (Datetime.sub current_time dep))
               current_time).

(** [class VoyageScheduler] *)
Record VoyageScheduler : Type := mkScheduler {
  sched_route : Route;
  start_date : Datetime.datetime;
  num_ships : Z;
  interval_days : Q;
  voyages : list Voyage
}.

(** One iteration of the loop of [_generate_voyages]. *)
Definition generate_voyage (r : Route) (start : Datetime.datetime)
    (interval : Q) (sid : Z) : result Voyage :=
  td <- Datetime.timedelta_days (inject_Z (sid - 1) * interval) ;;
  dep <- Datetime.add start td ;;
  _calculate_voyage r sid dep.

(** [VoyageScheduler._generate_voyages] *)
Definition _generate_voyages (r : Route) (start : Datetime.datetime)
    (n : Z) (interval : Q) : result (list Voyage) :=
  for_each (generate_voyage r start interval) (range1 n).

(** [VoyageScheduler.__init__] *)
Definition VoyageScheduler_init (r : Route) (start : Datetime.datetime)
    (n : Z) (interval : Q) : result VoyageScheduler :=
  vs <- _generate_voyages r start n interval ;;
  Ok (mkScheduler r start n interval vs).

(* ================================================================== *)
(** ** The buffer simulation *)

(** The two values of an event's ["type"] key. *)
Inductive event_type : Set :=
| river_arrival
| sea_departure.

(** One dictionary of [self.events]. *)
Record Event : Type := mkEvent {
  ev_time : Datetime.datetime;
  ev_type : event_type;
  ev_ship : string;
  ev_port : string;
  ev_volume : Q
}.

(** The ["action"] text of a log entry.  The source renders it with an
    f-string from a fixed label and the event's volume; the entry keeps
    the label and the volume. *)
Inductive action : Type :=
| Unload_river (volume : Q)   (* unloading of a river vessel, (+volume) *)
| Load_sea (volume : Q).      (* loading of a sea vessel, (-volume) *)

(** One dictionary of [self.tank_log]. *)
Record LogEntry : Type := mkLog {
  log_time : Datetime.datetime;
  log_ship : string;
  log_action : action;
  tank_level : Q;
  log_port : string
}.

(** [class TankSimulation] *)
Record TankSimulation : Type := mkTank {
  tank_capacity : Q;
  level : Q;
  river_scheduler : VoyageScheduler;
  sea_scheduler : VoyageScheduler;
  events : list Event;
  tank_log : list LogEntry
}.

(** The event appended for one voyage of the river scheduler. *)
Definition river_event (transfer_port : string) (v : Voyage) : result Event :=
  last_stop <- last_item (itinerary v) ;;
  Ok (mkEvent (arrival last_stop) river_arrival (ship_name v)
              transfer_port (capacity v)).

(** The event appended for one voyage of the sea scheduler. *)
Definition sea_event (transfer_port : string) (v : Voyage) : result Event :=
  first_stop <- first_item (itinerary v) ;;
  Ok (mkEvent (departure first_stop) sea_departure (ship_name v)
              transfer_port (capacity v)).

(** The two loops that fill [self.events], before the sort. *)
Definition build_events (river sea : VoyageScheduler) : result (list Event) :=
  ports <- get_ports (sched_route river) ;;
  transfer_port <- last_item ports ;;
  evs_river <- for_each (river_event transfer_port) (voyages river) ;;
  evs_sea <- for_each (sea_event transfer_port) (voyages sea) ;;
  Ok (evs_river ++ evs_sea).

(** [self.events.sort(key=lambda x: x["time"])].  Python's sort is stable;
    a stable sort has one possible result (see [sort_events_unique]), which
    insertion from the right computes. *)
Fixpoint insert_event (e : Event) (l : list Event) : list Event :=
  match l with
  | [] => [e]
  | y :: l' =>
      if ev_time e <=? ev_time y then e :: y :: l'
      else y :: insert_event e l'
  end.

Fixpoint sort_events (l : list Event) : list Event :=
  match l with
  | [] => []
  | e :: l' => insert_event e (sort_events l')
  end.

(** The body of the loop [for event in self.events], on the state
    [(self.level, self.tank_log)]. *)
Definition apply_event (cap : Q) (st : Q * list LogEntry) (e : Event)
  : Q * list LogEntry :=
  let (lvl, log) := st in
  match ev_type e with
  | river_arrival =>
      let lvl1 := (lvl + ev_volume e)%Q in
      let lvl2 := if Qgtb lvl1 cap then cap else lvl1 in
      (lvl2, log ++ [mkLog (ev_time e) (ev_ship e)
                           (Unload_river (ev_volume e)) lvl2 (ev_port e)])
  | sea_departure =>
      let lvl1 := (lvl - ev_volume e)%Q in
      let lvl2 := if Qltb lvl1 0 then 0%Q else lvl1 in
      (lvl2, log ++ [mkLog (ev_time e) (ev_ship e)
                           (Load_sea (ev_volume e)) lvl2 (ev_port e)])
  end.

Definition replay (cap : Q) (st : Q * list LogEntry) (evs : list Event)
  : Q * list LogEntry :=
  fold_left (apply_event cap) evs st.

(** [TankSimulation.__init__], which runs [_simulate]. *)
Definition TankSimulation_init (cap : Q) (river sea : VoyageScheduler)
  : result TankSimulation :=
  evs <- build_events river sea ;;
  let sorted := sort_events evs in
  let st := replay cap (0%Q, []) sorted in
  Ok (mkTank cap (fst st) river sea sorted (snd st)).

(* ================================================================== *)
(** ** Summary metrics *)

(** [max([l['tank_level'] for l in tank_sim.tank_log])] *)
Definition max_level (sim : TankSimulation) : result Q :=
  max_Q (map tank_level (tank_log sim)).

(** [min([l['tank_level'] for l in tank_sim.tank_log])] *)
Definition min_level (sim : TankSimulation) : result Q :=
  min_Q (map tank_level (tank_log sim)).

(** The element computed for one [v] by the list comprehension
    [(v['arrival_final']
      - river_scheduler.voyages[0]['itinerary'][0]['departure']).days]. *)
Definition cycle_item (river : VoyageScheduler) (v : Voyage) : result Z :=
  v0 <- first_item (voyages river) ;;
  s0 <- first_item (itinerary v0) ;;
  Ok (Datetime.days (Datetime.sub (arrival_final v) (departure s0))).

(** The cycle length of [export_to_excel] and of the first tab:
    [max([... for v in river_scheduler.voyages + sea_scheduler.voyages])]. *)
Definition cycle_length (river sea : VoyageScheduler) : result Z :=
  ds <- for_each (cycle_item river) (voyages river ++ voyages sea) ;;
  max_Z ds.

(** The three computed entries of the summary sheet of [export_to_excel],
    in the order the list literal evaluates them. *)
Definition summary_metrics (river sea : VoyageScheduler)
    (sim : TankSimulation) : result (Q * Q * Z) :=
  mx <- max_level sim ;;
  mn <- min_level sim ;;
  cl <- cycle_length river sea ;;
  Ok (mx, mn, cl).

(** The two computed entries of the summary table of [export_to_pdf]. *)
Definition pdf_metrics (sim : TankSimulation) : result (Q * Q) :=
  mx <- max_level sim ;;
  mn <- min_level sim ;;
  Ok (mx, mn).

(* ================================================================== *)
(** ** Tables and charts *)

Module Calendar.

(** The calendar date of a datetime, the value [strftime("%Y-%m-%d")]
    prints.  [ord2ymd] is the conversion of the [datetime] module from a
    proleptic Gregorian ordinal, where 0001-01-01 is day 1. *)
Record date : Set := mkDate { year : Z; month : Z; day : Z }.

Definition DI400Y : Z := 146097.
Definition DI100Y : Z := 36524.
Definition DI4Y : Z := 1461.

Definition DAYS_IN_MONTH : list Z :=
  [-1; 31; 28; 31; 30; 31; 30; 31; 31; 30; 31; 30; 31].

Definition DAYS_BEFORE_MONTH : list Z :=
  [-1; 0; 31; 59; 90; 120; 151; 181; 212; 243; 273; 304; 334].

Definition ord2ymd (n : Z) : date :=
  let n := n - 1 in
  let n400 := n / DI400Y in
  let n := n mod DI400Y in
  let year := n400 * 400 + 1 in
  let n100 := n / DI100Y in
  let n := n mod DI100Y in
  let n4 := n / DI4Y in
  let n := n mod DI4Y in
  let n1 := n / 365 in
  let n := n mod 365 in
  let year := year + n100 * 100 + n4 * 4 + n1 in
  if (n1 =? 4) || (n100 =? 4) then mkDate (year - 1) 12 31
  else
    let leapyear := (n1 =? 3) && (negb (n4 =? 24) || (n100 =? 3)) in
    let month := Z.shiftr (n + 50) 5 in
    let preceding :=
      nth (Z.to_nat month) DAYS_BEFORE_MONTH 0
      + (if (2 <? month) && leapyear then 1 else 0) in
    if n <? preceding then
      let month := month - 1 in
      let preceding :=
        preceding
        - (nth (Z.to_nat month) DAYS_IN_MONTH 0
           + (if (month =? 2) && leapyear then 1 else 0)) in
      mkDate year month (n - preceding + 1)
    else mkDate year month (n - preceding + 1).

Definition date_of (t : Datetime.datetime) : date :=
  ord2ymd (t / Datetime.US_PER_DAY + 1).

End Calendar.

(** One row of the table of [get_schedule_df]; the three dates are the
    values that [strftime("%Y-%m-%d")] prints. *)
Record ScheduleRow : Type := mkRow {
  row_ship : string;
  row_leg : string;
  row_from : string;
  row_to : string;
  row_departure : Calendar.date;
  row_arrival : Calendar.date;
  row_operation_end : Calendar.date;
  row_voyage_days : Q;
  row_operation_days : Q
}.

Definition schedule_row (v : Voyage) (st : Stop) : ScheduleRow :=
  mkRow (ship_name v) (leg st) (port_from st) (port_to st)
        (Calendar.date_of (departure st)) (Calendar.date_of (arrival st))
        (Calendar.date_of (operation_end st))
        (voyage_time_days st) (stop_operation_days st).

(** [VoyageScheduler.get_schedule_df]: the rows of the data frame. *)
Definition get_schedule_df (s : VoyageScheduler) : list ScheduleRow :=
  flat_map (fun v => map (schedule_row v) (itinerary v)) (voyages s).

(** [TankSimulation.get_log_df]: the rows of the data frame. *)
Definition get_log_df (sim : TankSimulation) : list LogEntry := tank_log sim.

(** One row of [df_rows] in [create_gantt_detailed]. *)
Record TimelineRow : Type := mkTimeline {
  Task : string;
  Start : Datetime.datetime;
  Finish : Datetime.datetime;
  Resource : string;
  Resource_num : Z
}.

Definition timeline_rows (resource : string) (s : VoyageScheduler)
  : list TimelineRow :=
  flat_map (fun v =>
              map (fun st => mkTimeline (ship_name v) (departure st)
                                        (operation_end st) resource (ship_id v))
                  (itinerary v))
           (voyages s).

(** The exception of a data frame that has no such column: a data frame
    made from an empty list of rows has no column at all. *)
Inductive pandas_exception : Set :=
| KeyError (column : string).

(** [len(set(l))] for a list of strings. *)
Definition count_distinct (l : list string) : Z :=
  Z.of_nat (List.length (nodup string_dec l)).

(** [create_gantt_detailed]: the data frame and the height handed to
    [px.timeline]; [df['Task']] raises on the empty data frame. *)
Definition create_gantt_detailed (river sea : VoyageScheduler)
  : pandas_exception + (list TimelineRow * Z) :=
  let df_rows := timeline_rows "River" river ++ timeline_rows "Sea" sea in
  match df_rows with
  | [] => inl (KeyError "Task")
  | _ :: _ => inr (df_rows, 400 + count_distinct (map Task df_rows) * 15)
  end.

(** [create_tank_chart]: the three columns of the log handed to the
    scatter trace and the level of the horizontal line; [df['time']]
    raises on the data frame of an empty log. *)
Record TankChart : Type := mkTankChart {
  chart_x : list Datetime.datetime;
  chart_y : list Q;
  chart_customdata : list action;
  chart_hline : Q
}.

Definition create_tank_chart (sim : TankSimulation)
  : pandas_exception + TankChart :=
  let df := get_log_df sim in
  match df with
  | [] => inl (KeyError "time")
  | _ :: _ =>
      inr (mkTankChart (map log_time df) (map tank_level df)
                       (map log_action df) (tank_capacity sim))
  end.

(** One bar of [create_gantt_chart]; [bar_text] holds the two characters
    the label joins with an arrow. *)
Record Bar : Type := mkBar {
  bar_x : Datetime.timedelta;
  bar_y : Z;
  bar_base : Datetime.datetime;
  bar_name : string;
  bar_color : string;
  bar_text : ascii * ascii;
  bar_showlegend : bool
}.

(** The figure of [create_gantt_chart]: its traces and the layout values
    computed from [y_labels]. *)
Record Figure : Type := mkFigure {
  fig_bars : list Bar;
  fig_height : Z;
  fig_ticktext : list string;
  fig_tickvals : list Z
}.

(** [s[-1]] on a string. *)
Definition last_char (s : string) : result ascii :=
  last_item (list_ascii_of_string s).

(** [enumerate(l)] *)
Definition enumerate {A : Type} (l : list A) : list (Z * A) :=
  combine (map Z.of_nat (seq 0 (List.length l))) l.

(** A [for] loop that updates a state and may raise. *)
Fixpoint fold_result {S A : Type} (f : S -> A -> result S) (l : list A)
    (s : S) : result S :=
  match l with
  | [] => Ok s
  | x :: l' => s' <- f s x ;; fold_result f l' s'
  end.

(** The trace added for one stop. *)
Definition stop_bar (color : string) (i y_pos : Z) (v : Voyage) (st : Stop)
  : result Bar :=
  c1 <- last_char (port_from st) ;;
  c2 <- last_char (port_to st) ;;
  Ok (mkBar (Datetime.sub (operation_end st) (departure st)) y_pos
            (departure st) (ship_name v) color (c1, c2) (i =? 0)).

(** The body of the loop over the voyages of one fleet, on the state
    [(y_pos, y_labels, traces)]. *)
Definition fleet_step (color : string)
    (st : Z * list string * list Bar) (iv : Z * Voyage)
  : result (Z * list string * list Bar) :=
  let '(y_pos, y_labels, traces) := st in
  let (i, v) := iv in
  bars <- for_each (stop_bar color i y_pos v) (itinerary v) ;;
  Ok (y_pos + 1, y_labels ++ [ship_name v], traces ++ bars).

Definition RIVER_COLOR : string := "rgba(100, 150, 255, 0.8)".
Definition SEA_COLOR : string := "rgba(255, 165, 100, 0.8)".

(** [create_gantt_chart] *)
Definition create_gantt_chart (river sea : VoyageScheduler) : result Figure :=
  st1 <- fold_result (fleet_step RIVER_COLOR) (enumerate (voyages river))
                     (0, [], []) ;;
  st2 <- fold_result (fleet_step SEA_COLOR) (enumerate (voyages sea)) st1 ;;
  let '(_, y_labels, traces) := st2 in
  Ok (mkFigure traces
               (400 + Z.of_nat (List.length y_labels) * 15)
               y_labels
               (map Z.of_nat (seq 0 (List.length y_labels)))).

(* ================================================================== *)
(** * Specification vocabulary *)

(** ** Itineraries *)

(** The timing of one stop: the arrival is the departure plus the transit
    time, the end of the operation is the arrival plus the operation time,
    both durations converted by [timedelta(days=...)]. *)
Definition stop_timing (st : Stop) : Prop :=
  exists td1 td2 : Datetime.timedelta,
    Datetime.timedelta_days (voyage_time_days st) = Ok td1 /\
    arrival st = departure st + td1 /\
    Datetime.timedelta_days (stop_operation_days st) = Ok td2 /\
    operation_end st = arrival st + td2.

(** A stop made for a leg: numbered from 1, with the leg's names, ports
    and durations. *)
Definition stop_of_leg (i : Z) (l : Leg) (st : Stop) : Prop :=
  leg_no st = i /\ leg st = leg_name l /\
  port_from st = leg_port_from l /\ port_to st = leg_port_to l /\
  voyage_time_days st = duration_days l /\
  stop_operation_days st = operation_days l.

(** The stops start at [t], each one departs when the previous operation
    ends, and the last operation ends at [t']. *)
Fixpoint chained_from (t : Datetime.datetime) (stops : list Stop)
    (t' : Datetime.datetime) : Prop :=
  match stops with
  | [] => t' = t
  | st :: rest => departure st = t /\ chained_from (operation_end st) rest t'
  end.

(** Every stop after the first departs when the previous stop's operation
    ends. *)
Definition chained (stops : list Stop) : Prop :=
  forall i a b,
    nth_error stops i = Some a -> nth_error stops (S i) = Some b ->
    departure b = operation_end a.

(** ** Scenarios

    The default parameters of the application page (names in ASCII), and a
    route with two legs. *)

Definition leg_river : Leg := mkLeg "River_A-B" "PortA" "PortB" 5 1.
Definition leg_sea : Leg := mkLeg "Sea_B-C" "PortB" "PortC" 10 1.
Definition route_river : Route := mkRoute "River_route" [leg_river] 30.
Definition route_sea : Route := mkRoute "Sea_route" [leg_sea] 25.
Definition river_start : Datetime.datetime := Datetime.ymd 2024 4 10.
Definition sea_start : Datetime.datetime := Datetime.ymd 2024 11 20.

Definition route_two_legs : Route :=
  mkRoute "Two_legs"
          [mkLeg "A-B" "PortA" "PortB" (5 # 2) (3 # 4);
           mkLeg "B-C" "PortB" "PortC" 4 (1 # 2)] 40.

(** The value of a construction that is known to succeed. *)
Definition built {A : Type} (default : A) (m : result A) : A :=
  match m with
  | Ok a => a
  | Raise _ => default
  end.

Definition no_scheduler : VoyageScheduler :=
  mkScheduler (mkRoute "" [] 0) 0 0 0 [].

Definition no_voyage : Voyage := mkVoyage 0 "" "" 0 [] 0 0.

Definition river_scheduler_default : VoyageScheduler :=
  Eval vm_compute in
    built no_scheduler (VoyageScheduler_init route_river river_start 3 1).

Definition sea_scheduler_default : VoyageScheduler :=
  Eval vm_compute in
    built no_scheduler (VoyageScheduler_init route_sea sea_start 4 1).

Definition scheduler_two_legs : VoyageScheduler :=
  Eval vm_compute in
    built no_scheduler
          (VoyageScheduler_init route_two_legs river_start 3 (3 # 2)).

Definition voyage_two_legs : Voyage :=
  Eval vm_compute in
    built no_voyage (_calculate_voyage route_two_legs 1 river_start).

(** A sea fleet that starts before the river fleet. *)
Definition sea_scheduler_early : VoyageScheduler :=
  Eval vm_compute in
    built no_scheduler
          (VoyageScheduler_init route_sea (Datetime.ymd 2024 4 1) 4 1).

Definition no_stop : Stop := mkStop 0 "" "" "" 0 0 0 0 0.

(** The first stop of the first voyage of the default river fleet. *)
Definition river_first_stop : Stop :=
  Eval vm_compute in
    nth 0 (itinerary (nth 0 (voyages river_scheduler_default) no_voyage))
        no_stop.

(** A sea fleet of three vessels whose first departure coincides with the
    arrival of the second river vessel, and the simulations of the default
    and of this scenario with a buffer of 100 units. *)
Definition sea_scheduler_tie : VoyageScheduler :=
  Eval vm_compute in
    built no_scheduler
          (VoyageScheduler_init route_sea (Datetime.ymd 2024 4 16) 3 1).

Definition no_simulation : TankSimulation :=
  mkTank 0 0 no_scheduler no_scheduler [] [].

Definition tank_sim_default : TankSimulation :=
  Eval vm_compute in
    built no_simulation
          (TankSimulation_init 100 river_scheduler_default
                               sea_scheduler_default).

Definition tank_sim_tie : TankSimulation :=
  Eval vm_compute in
    built no_simulation
          (TankSimulation_init 100 river_scheduler_default sea_scheduler_tie).

(** Fleets without vessels, and their simulation. *)
Definition river_scheduler_empty : VoyageScheduler :=
  Eval vm_compute in
    built no_scheduler (VoyageScheduler_init route_river river_start 0 1).

Definition sea_scheduler_empty : VoyageScheduler :=
  Eval vm_compute in
    built no_scheduler (VoyageScheduler_init route_sea sea_start 0 1).

Definition tank_sim_empty : TankSimulation :=
  Eval vm_compute in
    built no_simulation
          (TankSimulation_init 100 river_scheduler_empty sea_scheduler_empty).

Definition tank_sim_no_sea : TankSimulation :=
  Eval vm_compute in
    built no_simulation
          (TankSimulation_init 100 river_scheduler_default sea_scheduler_empty).

(** A route without legs. *)
Definition route_no_legs : Route := mkRoute "No_legs" [] 30.

(** ** Metrics *)

(** The elapsed time of voyage [v] counted from the departure of stop
    [s0]. *)
Definition elapsed_since (s0 : Stop) (v : Voyage) : Datetime.timedelta :=
  Datetime.sub (arrival_final v) (departure s0).

(** ** Events and the log *)

(** The volume an event adds to the buffer: positive for an arrival of the
    river fleet, negative for a departure of the sea fleet. *)
Definition signed_volume (e : Event) : Q :=
  match ev_type e with
  | river_arrival => ev_volume e
  | sea_departure => (- ev_volume e)%Q
  end.

Definition inflow_volume (e : Event) : Q :=
  match ev_type e with
  | river_arrival => ev_volume e
  | sea_departure => 0%Q
  end.

Definition outflow_volume (e : Event) : Q :=
  match ev_type e with
  | river_arrival => 0%Q
  | sea_departure => ev_volume e
  end.

Definition Qsum (l : list Q) : Q := fold_right Qplus 0%Q l.

(** Cumulative inflow minus cumulative outflow over a sequence of events. *)
Definition net_volume (evs : list Event) : Q := Qsum (map signed_volume evs).
Definition total_inflow (evs : list Event) : Q := Qsum (map inflow_volume evs).
Definition total_outflow (evs : list Event) : Q := Qsum (map outflow_volume evs).

(** The level after one event, as the loop body computes it. *)
Definition next_level (cap lvl : Q) (e : Event) : Q :=
  fst (apply_event cap (lvl, []) e).

(** The log entry written for event [e] with resulting level [lvl]. *)
Definition entry_for (e : Event) (lvl : Q) : LogEntry :=
  mkLog (ev_time e) (ev_ship e)
        (match ev_type e with
         | river_arrival => Unload_river (ev_volume e)
         | sea_departure => Load_sea (ev_volume e)
         end)
        lvl (ev_port e).

(** The entries the loop appends from level [lvl], and the level it ends
    with: the loop of [replay] read as a recursion on the events. *)
Fixpoint trace (cap lvl : Q) (evs : list Event) : list LogEntry :=
  match evs with
  | [] => []
  | e :: evs' =>
      entry_for e (next_level cap lvl e) :: trace cap (next_level cap lvl e) evs'
  end.

Fixpoint final_level (cap lvl : Q) (evs : list Event) : Q :=
  match evs with
  | [] => lvl
  | e :: evs' => final_level cap (next_level cap lvl e) evs'
  end.

(** A log entry that records the application of an event. *)
Definition entry_of_event (e : Event) (en : LogEntry) : Prop :=
  log_time en = ev_time e /\ log_ship en = ev_ship e /\
  log_port en = ev_port e /\
  log_action en = match ev_type e with
                  | river_arrival => Unload_river (ev_volume e)
                  | sea_departure => Load_sea (ev_volume e)
                  end.

Definition within (cap lvl : Q) : Prop := (0 <= lvl /\ lvl <= cap)%Q.

(** Order of application: time does not decrease, and no departure of the
    sea fleet comes before an arrival of the river fleet that has the
    same timestamp. *)
Definition time_le (a b : Event) : Prop := ev_time a <= ev_time b.

Definition applied_before (a b : Event) : Prop :=
  ev_time a <= ev_time b /\
  (ev_time a = ev_time b -> ev_type a = sea_departure ->
   ev_type b = sea_departure).

Definition at_time (t : Datetime.datetime) (e : Event) : bool :=
  ev_time e =? t.

(** The event of a voyage of the river fleet: at the arrival of the last
    stop, with the voyage's capacity, at the transfer port. *)
Definition inflow_event_of (transfer_port : string) (v : Voyage) (e : Event)
  : Prop :=
  exists last_stop,
    last_item (itinerary v) = Ok last_stop /\
    ev_time e = arrival last_stop /\ ev_type e = river_arrival /\
    ev_ship e = ship_name v /\ ev_port e = transfer_port /\
    ev_volume e = capacity v.

(** The event of a voyage of the sea fleet: at the departure of the first
    stop, with the voyage's capacity, at the transfer port. *)
Definition outflow_event_of (transfer_port : string) (v : Voyage) (e : Event)
  : Prop :=
  exists first_stop,
    first_item (itinerary v) = Ok first_stop /\
    ev_time e = departure first_stop /\ ev_type e = sea_departure /\
    ev_ship e = ship_name v /\ ev_port e = transfer_port /\
    ev_volume e = capacity v.

(** The level the buffer has when entry [n] of a log is about to be
    written: the initial level for the first entry, the level of the
    previous entry for the others. *)
Definition level_before (init : Q) (log : list LogEntry) (n : nat) : Q :=
  match n with
  | O => init
  | S m => match nth_error log m with
           | Some p => tank_level p
           | None => init
           end
  end.

(** ** Charts *)

(** The name given to vessel [k]. *)
Definition ship_label (k : Z) : string := ("Ship_" ++ str_int k)%string.

(** The bar drawn for stop [st] of voyage [v], the voyage of index [i] in
    its fleet, on line [y]: it starts at the departure, lasts until the
    end of the operation and is labelled with the last character of each
    port's name; only the first voyage of a fleet enters the legend. *)
Definition bar_of (color : string) (i y : Z) (v : Voyage) (st : Stop)
    (b : Bar) : Prop :=
  bar_base b = departure st /\
  bar_base b + bar_x b = operation_end st /\
  bar_y b = y /\ bar_name b = ship_name v /\ bar_color b = color /\
  bar_showlegend b = (i =? 0) /\
  last_char (port_from st) = Ok (fst (bar_text b)) /\
  last_char (port_to st) = Ok (snd (bar_text b)).

(** The bars of a fleet: the bars of each voyage, one for every stop,
    voyage after voyage, each voyage on a line of its own. *)
Fixpoint fleet_bars (color : string) (i y : Z) (vs : list Voyage)
    (bars : list Bar) : Prop :=
  match vs with
  | [] => bars = []
  | v :: vs' =>
      exists b1 b2,
        bars = b1 ++ b2 /\
        Forall2 (bar_of color i y v) (itinerary v) b1 /\
        fleet_bars color (i + 1) (y + 1) vs' b2
  end.

(** ** Errors *)

(** A computation is rejected when it raises. *)
Definition rejected {A : Type} (m : result A) : Prop :=
  exists e, m = Raise e.

(** A computation signals the absence of data distinctly when it raises
    an exception other than the [ValueError] that [max()] and [min()]
    raise on any empty sequence. *)
Definition signals_no_data {A : Type} (m : result A) : Prop :=
  exists e, m = Raise e /\ e <> ValueError.

(** ** The level in floating point *)

Module Binary64.

(** A Python [float]: an IEEE 754 binary64 number, with the operations of
    the Standard Library's executable specification of binary floats
    (rounding to nearest, ties to even). *)
Definition prec : Z := 53.
Definition emax : Z := 1024.
Definition float : Set := spec_float.

Definition zero : float := S754_zero false.
Definition of_Z (z : Z) : float := binary_normalize prec emax z 0 false.
Definition add : float -> float -> float := SFadd prec emax.
Definition sub : float -> float -> float := SFsub prec emax.
Definition div : float -> float -> float := SFdiv prec emax.
Definition ltb : float -> float -> bool := SFltb.
Definition eqb : float -> float -> bool := SFeqb.

(** The float nearest to a fraction of two integers below [2^53], as a
    decimal literal such as [0.1] denotes the float nearest to 1/10. *)
Definition of_Q (q : Q) : float := div (of_Z (Qnum q)) (of_Z (Zpos (Qden q))).

(** The exact value of a finite float. *)
Definition to_Q (f : float) : Q :=
  match f with
  | S754_finite s m e =>
      ((if s then -1 else 1) * inject_Z (Zpos m) * 2 ^ e)%Q
  | _ => 0%Q
  end.

End Binary64.

(** The loop [for event in self.events] when the capacity and the volumes
    are floats, on the state [(self.level, levels logged so far)]: [+=],
    [-=], [>] and [<] are the operations of binary64.  An event is given
    by its type and its volume. *)
Definition apply_event_float (cap : Binary64.float)
    (st : Binary64.float * list Binary64.float)
    (e : event_type * Binary64.float)
  : Binary64.float * list Binary64.float :=
  let (lvl, log) := st in
  match fst e with
  | river_arrival =>
      let lvl1 := Binary64.add lvl (snd e) in
      let lvl2 := if Binary64.ltb cap lvl1 then cap else lvl1 in
      (lvl2, log ++ [lvl2])
  | sea_departure =>
      let lvl1 := Binary64.sub lvl (snd e) in
      let lvl2 := if Binary64.ltb lvl1 Binary64.zero then Binary64.zero
                  else lvl1 in
      (lvl2, log ++ [lvl2])
  end.

Definition replay_float (cap : Binary64.float)
    (evs : list (event_type * Binary64.float))
  : Binary64.float * list Binary64.float :=
  fold_left (apply_event_float cap) evs (Binary64.zero, []).

(** The events of a simulation with the floats nearest to their
    volumes. *)
Definition float_events (evs : list Event)
  : list (event_type * Binary64.float) :=
  map (fun e => (ev_type e, Binary64.of_Q (ev_volume e))) evs.

(** [sum(...)] over floats, from the left. *)
Definition sum_float (l : list Binary64.float) : Binary64.float :=
  fold_left Binary64.add l Binary64.zero.

Definition total_inflow_float (evs : list (event_type * Binary64.float))
  : Binary64.float :=
  sum_float (map snd (filter (fun e => match fst e with
                                       | river_arrival => true
                                       | sea_departure => false
                                       end) evs)).

Definition total_outflow_float (evs : list (event_type * Binary64.float))
  : Binary64.float :=
  sum_float (map snd (filter (fun e => match fst e with
                                       | river_arrival => false
                                       | sea_departure => true
                                       end) evs)).

(** Cumulative inflow minus cumulative outflow of float events, in exact
    arithmetic. *)
Definition net_volume_float (evs : list (event_type * Binary64.float)) : Q :=
  Qsum (map (fun e => match fst e with
                      | river_arrival => Binary64.to_Q (snd e)
                      | sea_departure => (- Binary64.to_Q (snd e))%Q
                      end) evs).

(** Four river vessels and two sea vessels of capacity 0.1 and a buffer
    of 1000: all arrivals come before the departures. *)
Definition river_scheduler_tenth : VoyageScheduler :=
  Eval vm_compute in
    built no_scheduler
          (VoyageScheduler_init (mkRoute "River_route" [leg_river] (1 # 10))
                                river_start 4 1).

Definition sea_scheduler_tenth : VoyageScheduler :=
  Eval vm_compute in
    built no_scheduler
          (VoyageScheduler_init (mkRoute "Sea_route" [leg_sea] (1 # 10))
                                sea_start 2 1).

Definition tank_sim_tenth : TankSimulation :=
  Eval vm_compute in
    built no_simulation
          (TankSimulation_init 1000 river_scheduler_tenth sea_scheduler_tenth).

(* ================================================================== *)
(** * Properties *)

(** ** The exception monad and loops *)

Lemma bind_Ok {A B : Type} (m : result A) (k : A -> result B) (b : B) :
  bind m k = Ok b -> exists a, m = Ok a /\ k a = Ok b.
Proof.
  destruct m as [a|e]; simpl; intros H; [exists a; auto | discriminate].
Qed.

Lemma bind_Raise {A B : Type} (m : result A) (k : A -> result B) (e : exception) :
  bind m k = Raise e ->
  m = Raise e \/ exists a, m = Ok a /\ k a = Raise e.
Proof.
  destruct m as [a|e']; simpl; intros H.
  - right; exists a; split; [reflexivity | exact H].
  - left; injection H as ->; reflexivity.
Qed.

(** Splits a hypothesis [x <- m ;; k = Ok b] into its steps. *)
Ltac inv_bind H :=
  match type of H with
  | bind _ _ = Ok _ =>
      let a := fresh "a" in
      let Ha := fresh "Ha" in
      apply bind_Ok in H; destruct H as (a & Ha & H); inv_bind H
  | Ok _ = Ok _ => injection H as H
  | _ => idtac
  end.

Lemma for_each_Ok {A B : Type} (f : A -> result B) (l : list A) (ys : list B) :
  for_each f l = Ok ys <-> Forall2 (fun x y => f x = Ok y) l ys.
Proof.
  revert ys; induction l as [|x l IH]; intros ys; simpl.
  - split; intros H.
    + injection H as <-; constructor.
    + inversion H; reflexivity.
  - split; intros H.
    + inv_bind H. subst ys. constructor; [assumption | now apply IH].
    + inversion H as [|x' y l' ys' Hxy Hrest]; subst.
      rewrite Hxy; simpl. apply IH in Hrest. rewrite Hrest; reflexivity.
Qed.

Lemma for_each_length {A B : Type} (f : A -> result B) l ys :
  for_each f l = Ok ys -> List.length ys = List.length l.
Proof.
  intros H; apply for_each_Ok in H. symmetry; eapply Forall2_length; eauto.
Qed.

Lemma for_each_total {A B : Type} (f : A -> result B) (l : list A) :
  (forall x, In x l -> exists y, f x = Ok y) ->
  exists ys, for_each f l = Ok ys.
Proof.
  induction l as [|x l IH]; intros H; simpl.
  - eexists; reflexivity.
  - destruct (H x (or_introl eq_refl)) as [y Hy]. rewrite Hy; simpl.
    destruct IH as [ys Hys]; [intros; apply H; right; assumption|].
    rewrite Hys; simpl. eexists; reflexivity.
Qed.

Lemma for_each_Raise {A B : Type} (f : A -> result B) (l : list A) e :
  for_each f l = Raise e -> exists x, In x l /\ f x = Raise e.
Proof.
  induction l as [|x l IH]; simpl; intros H; [discriminate|].
  apply bind_Raise in H. destruct H as [H | (y & Hy & H)].
  - exists x; auto.
  - apply bind_Raise in H. destruct H as [H | (ys & _ & H)]; [|discriminate].
    destruct (IH H) as (x' & Hin & Hx'). exists x'; auto.
Qed.

Lemma first_item_Ok {A : Type} (l : list A) (x : A) :
  first_item l = Ok x <-> exists l', l = x :: l'.
Proof.
  destruct l as [|y l]; simpl; split.
  - discriminate.
  - intros [l' H]; discriminate.
  - intros H; injection H as ->; eauto.
  - intros [l' H]; injection H as -> _; reflexivity.
Qed.

Lemma last_item_app {A : Type} (l : list A) (x : A) :
  last_item (l ++ [x]) = Ok x.
Proof.
  induction l as [|y l IH]; simpl; [reflexivity|].
  destruct (l ++ [x]) eqn:E; [destruct l; discriminate | assumption].
Qed.

Lemma last_item_Ok {A : Type} (l : list A) (x : A) :
  last_item l = Ok x <-> exists l', l = l' ++ [x].
Proof.
  split.
  - destruct l as [|y l] using rev_ind; [discriminate|].
    rewrite last_item_app. intros H; injection H as ->; eauto.
  - intros [l' ->]; apply last_item_app.
Qed.

Lemma last_item_nonempty {A : Type} (l : list A) :
  l <> [] -> exists x, last_item l = Ok x.
Proof.
  destruct l as [|y l] using rev_ind; [congruence|].
  intros _. exists y. apply last_item_app.
Qed.

Lemma last_item_cons {A : Type} (y : A) (l : list A) :
  l <> [] -> last_item (y :: l) = last_item l.
Proof. destruct l; [congruence | reflexivity]. Qed.

Lemma last_item_In {A : Type} (l : list A) (x : A) :
  last_item l = Ok x -> In x l.
Proof.
  intros H; apply last_item_Ok in H as [l' ->].
  apply in_or_app; right; left; reflexivity.
Qed.

Lemma range1_nonpos (n : Z) : n <= 0 -> range1 n = [].
Proof.
  intros H; unfold range1. replace (Z.to_nat n) with 0%nat by lia. reflexivity.
Qed.

Lemma range1_length (n : Z) : List.length (range1 n) = Z.to_nat n.
Proof. unfold range1. now rewrite length_map, length_seq. Qed.

Lemma range1_nth (n k : Z) :
  1 <= k <= n -> nth_error (range1 n) (Z.to_nat (k - 1)) = Some k.
Proof.
  intros H; unfold range1.
  rewrite nth_error_map, nth_error_seq.
  destruct (Nat.ltb_spec (Z.to_nat (k - 1)) (Z.to_nat n)); [|lia].
  simpl. f_equal. lia.
Qed.

Lemma range1_In (n k : Z) : In k (range1 n) <-> 1 <= k <= n.
Proof.
  unfold range1. rewrite in_map_iff. split.
  - intros (i & <- & Hi). apply in_seq in Hi. lia.
  - intros H. exists (Z.to_nat k). split; [lia|]. apply in_seq. lia.
Qed.

(** ** datetime arithmetic *)

Lemma add_Ok (t : Datetime.datetime) (td : Datetime.timedelta) t' :
  Datetime.add t td = Ok t' ->
  t' = t + td /\ Datetime.valid_datetime t' = true.
Proof.
  unfold Datetime.add. destruct (Datetime.valid_datetime (t + td)) eqn:E;
    [|discriminate].
  intros H; injection H as <-. auto.
Qed.

Lemma add_zero (t : Datetime.datetime) :
  Datetime.valid_datetime t = true -> Datetime.add t 0 = Ok t.
Proof.
  intros H; unfold Datetime.add. rewrite Z.add_0_r, H. reflexivity.
Qed.

Lemma round_half_even_zero (q : Q) : Qnum q = 0 -> Datetime.round_half_even q = 0.
Proof.
  intros H; unfold Datetime.round_half_even. rewrite H.
  rewrite Z.div_0_l, Zmod_0_l by discriminate. reflexivity.
Qed.

Lemma timedelta_days_zero (q : Q) :
  (q == 0)%Q -> Datetime.timedelta_days q = Ok 0.
Proof.
  intros H. unfold Datetime.timedelta_days.
  rewrite round_half_even_zero; [reflexivity|].
  unfold Qeq in H; simpl in H. rewrite Z.mul_1_r in H.
  simpl. rewrite H. reflexivity.
Qed.

Lemma days_floor (td : Datetime.timedelta) :
  Datetime.US_PER_DAY * Datetime.days td <= td
  < Datetime.US_PER_DAY * (Datetime.days td + 1).
Proof.
  unfold Datetime.days.
  pose proof (Z.div_mod td Datetime.US_PER_DAY) as E.
  pose proof (Z.mod_pos_bound td Datetime.US_PER_DAY) as B.
  unfold Datetime.US_PER_DAY in *. lia.
Qed.

Lemma days_monotone (a b : Datetime.timedelta) :
  a <= b -> Datetime.days a <= Datetime.days b.
Proof.
  intros H; unfold Datetime.days. apply Z.div_le_mono; [reflexivity | exact H].
Qed.

(** ** The walk along the legs *)

Lemma chained_from_first t stops t' st :
  chained_from t stops t' -> first_item stops = Ok st -> departure st = t.
Proof.
  destruct stops as [|a rest]; simpl; [discriminate|].
  intros [H _] E; injection E as <-; exact H.
Qed.

Lemma chained_from_last stops : forall t t' st,
  chained_from t stops t' -> last_item stops = Ok st -> operation_end st = t'.
Proof.
  induction stops as [|a rest IH]; intros t t' st; [discriminate|].
  intros [_ H] E. destruct rest as [|b rest].
  - simpl in *. injection E as <-. auto.
  - rewrite last_item_cons in E by discriminate. eapply IH; eauto.
Qed.

Lemma chained_from_nth stops : forall t t' i a b,
  chained_from t stops t' ->
  nth_error stops i = Some a -> nth_error stops (S i) = Some b ->
  departure b = operation_end a.
Proof.
  induction stops as [|x rest IH]; intros t t' i a b H Ha Hb.
  - destruct i; discriminate.
  - destruct H as [_ H]. destruct i as [|i].
    + simpl in Ha, Hb. injection Ha as <-.
      destruct rest as [|y rest]; [discriminate|].
      injection Hb as <-. apply H.
    + simpl in Ha. change (nth_error rest (S i) = Some b) in Hb.
      eapply IH; eauto.
Qed.

Lemma walk_legs_spec ls : forall i t w,
  walk_legs i t ls = Ok w ->
  Forall stop_timing (fst w) /\ chained_from t (fst w) (snd w) /\
  List.length (fst w) = List.length ls.
Proof.
  induction ls as [|l ls IH]; intros i t w H; simpl in H.
  - injection H as <-; simpl. auto.
  - inv_bind H. subst w; simpl.
    apply add_Ok in Ha0 as [E1 _], Ha2 as [E2 _].
    destruct (IH _ _ _ Ha3) as (F & C & L).
    repeat split; auto.
    constructor; [|assumption].
    exists a, a1; simpl. auto.
Qed.

Lemma walk_legs_stops ls : forall i t w,
  walk_legs i t ls = Ok w ->
  forall k l, nth_error ls k = Some l ->
    exists st, nth_error (fst w) k = Some st /\
               stop_of_leg (i + 1 + Z.of_nat k) l st.
Proof.
  induction ls as [|l0 ls IH]; intros i t w H k l Hk; simpl in H.
  - destruct k; discriminate.
  - inv_bind H. subst w; simpl. destruct k as [|k].
    + injection Hk as <-. eexists; split; [reflexivity|].
      unfold stop_of_leg; simpl. repeat split; lia.
    + simpl in Hk. destruct (IH _ _ _ Ha3 _ _ Hk) as (st & Hst & S1).
      exists st; split; [exact Hst|].
      replace (i + 1 + Z.of_nat (S k)) with (i + 1 + 1 + Z.of_nat k) by lia.
      exact S1.
Qed.

(** The walk does not depend on the index it starts from, except for the
    numbering of the stops. *)
Lemma walk_legs_total ls : forall i j t w,
  walk_legs i t ls = Ok w -> exists w', walk_legs j t ls = Ok w'.
Proof.
  induction ls as [|l ls IH]; intros i j t w H; simpl in *.
  - eexists; reflexivity.
  - inv_bind H. rewrite Ha; simpl. rewrite Ha0; simpl.
    rewrite Ha1; simpl. rewrite Ha2; simpl.
    destruct (IH _ (j + 1) _ _ Ha3) as [w' Hw']. rewrite Hw'; simpl.
    eexists; reflexivity.
Qed.

Lemma calculate_voyage_inv r sid dep v :
  _calculate_voyage r sid dep = Ok v ->
  exists w, walk_legs 0 dep (legs r) = Ok w /\
    v = mkVoyage sid (route_name r) ("Ship_" ++ str_int sid) (ship_capacity r)
                 (fst w) (Datetime.days (Datetime.sub (snd w) dep)) (snd w).
Proof.
  unfold _calculate_voyage; intros H. inv_bind H. eauto.
Qed.

Lemma generate_voyage_inv r start d sid v :
  generate_voyage r start d sid = Ok v ->
  exists td, Datetime.timedelta_days (inject_Z (sid - 1) * d) = Ok td /\
             Datetime.valid_datetime (start + td) = true /\
             _calculate_voyage r sid (start + td) = Ok v.
Proof.
  unfold generate_voyage; intros H. inv_bind H.
  apply add_Ok in Ha0 as [-> V]. eauto.
Qed.

Lemma Forall2_nth_error {A B : Type} (R : A -> B -> Prop) l l' :
  Forall2 R l l' -> forall i x, nth_error l i = Some x ->
  exists y, nth_error l' i = Some y /\ R x y.
Proof.
  induction 1 as [|x0 y0 l l' Hxy _ IH]; intros i x Hi.
  - destruct i; discriminate.
  - destruct i as [|i]; simpl in *.
    + injection Hi as <-; eauto.
    + apply IH; assumption.
Qed.

Lemma Forall2_In_r {A B : Type} (R : A -> B -> Prop) l l' :
  Forall2 R l l' -> forall y, In y l' -> exists x, In x l /\ R x y.
Proof.
  induction 1 as [|x0 y0 l l' Hxy _ IH]; intros y Hy; [contradiction|].
  destruct Hy as [<-|Hy]; [exists x0; simpl; auto|].
  destruct (IH _ Hy) as (x & Hx & Rx). exists x; simpl; auto.
Qed.

Lemma scheduler_voyages r start n d s :
  VoyageScheduler_init r start n d = Ok s ->
  sched_route s = r /\ start_date s = start /\
  num_ships s = n /\ interval_days s = d /\
  Forall2 (fun sid v => generate_voyage r start d sid = Ok v)
          (range1 n) (voyages s).
Proof.
  unfold VoyageScheduler_init, _generate_voyages; intros H. inv_bind H.
  subst s; simpl. apply for_each_Ok in Ha. auto.
Qed.

(** ** The voyage scheduler *)

Lemma scheduler_voyage_inv r start n d s v :
  VoyageScheduler_init r start n d = Ok s -> In v (voyages s) ->
  exists sid td, 1 <= sid <= n /\
    Datetime.timedelta_days (inject_Z (sid - 1) * d) = Ok td /\
    _calculate_voyage r sid (start + td) = Ok v.
Proof.
  intros H Hv. apply scheduler_voyages in H as (_ & _ & _ & _ & F).
  destruct (Forall2_In_r _ _ _ F _ Hv) as (sid & Hsid & G).
  apply range1_In in Hsid.
  apply generate_voyage_inv in G as (td & T & _ & C). eauto.
Qed.

(** C2 (chaining): in every voyage a scheduler produces, every stop after
    the first departs exactly when the previous stop's operation ends, and
    in every stop the arrival is the departure plus the transit duration
    and the end of the operation is the arrival plus the operation
    duration; there is one stop per leg of the route, in order, carrying
    that leg's durations. *)
Theorem voyage_chaining r start n d s v :
  VoyageScheduler_init r start n d = Ok s -> In v (voyages s) ->
  chained (itinerary v) /\
  Forall stop_timing (itinerary v) /\
  (forall k l, nth_error (legs r) k = Some l ->
     exists st, nth_error (itinerary v) k = Some st /\
                stop_of_leg (Z.of_nat k + 1) l st).
Proof.
  intros H Hv.
  destruct (scheduler_voyage_inv _ _ _ _ _ _ H Hv) as (sid & td & _ & _ & C).
  apply calculate_voyage_inv in C as (w & W & ->); simpl.
  destruct (walk_legs_spec _ _ _ _ W) as (T & Ch & _).
  split; [|split].
  - intros i a b Ha Hb. eapply chained_from_nth; eauto.
  - exact T.
  - intros k l Hk. destruct (walk_legs_stops _ _ _ _ W _ _ Hk) as (st & Hst & S1).
    exists st; split; [exact Hst|].
    replace (Z.of_nat k + 1) with (0 + 1 + Z.of_nat k) by lia. exact S1.
Qed.

Lemma voyage_chaining_witness :
  let v := nth 2 (voyages scheduler_two_legs) no_voyage in
  chained (itinerary v) /\
  Forall stop_timing (itinerary v) /\
  (forall k l, nth_error (legs route_two_legs) k = Some l ->
     exists st, nth_error (itinerary v) k = Some st /\
                stop_of_leg (Z.of_nat k + 1) l st).
Proof.
  apply (voyage_chaining route_two_legs river_start 3 (3 # 2)
                         scheduler_two_legs).
  - vm_compute; reflexivity.
  - simpl; auto.
Defined.

(** C3 (departure spacing): in a scheduler built for [n] vessels with
    interval [d], the first stop of voyage [k], for every [k] from 1 to
    [n], departs at [start_date + timedelta(days=(k-1)*d)].  With interval
    0 the construction succeeds as soon as one voyage leaving at the start
    date can be computed, and then all voyages depart at the start
    date. *)
Theorem departure_spacing (r : Route) (start : Datetime.datetime)
    (n : Z) (d : Q) :
  (forall s k,
     VoyageScheduler_init r start n d = Ok s -> 1 <= k <= n -> legs r <> [] ->
     exists v st td,
       nth_error (voyages s) (Z.to_nat (k - 1)) = Some v /\
       ship_id v = k /\
       first_item (itinerary v) = Ok st /\
       Datetime.timedelta_days (inject_Z (k - 1) * d) = Ok td /\
       departure st = start + td) /\
  ((d == 0)%Q -> Datetime.valid_datetime start = true ->
   (exists v1, _calculate_voyage r 1 start = Ok v1) ->
   exists s,
     VoyageScheduler_init r start n d = Ok s /\
     List.length (voyages s) = Z.to_nat n /\
     forall v st, In v (voyages s) -> first_item (itinerary v) = Ok st ->
                  departure st = start).
Proof.
  split.
  - intros s k H Hk Hlegs.
    apply scheduler_voyages in H as (_ & _ & _ & _ & F).
    destruct (Forall2_nth_error _ _ _ F _ _ (range1_nth n k Hk)) as (v & Hv & G).
    apply generate_voyage_inv in G as (td & T & _ & C).
    apply calculate_voyage_inv in C as (w & W & E).
    destruct (walk_legs_spec _ _ _ _ W) as (_ & Ch & Len).
    destruct (fst w) as [|st rest] eqn:Ew.
    + destruct (legs r); [congruence | discriminate].
    + exists v, st, td. split; [exact Hv|]. subst v; simpl.
      repeat split; auto. apply Ch.
  - intros Hd Hstart [v1 Hv1].
    apply calculate_voyage_inv in Hv1 as (w & W & _).
    assert (G : forall sid, generate_voyage r start d sid
                = _calculate_voyage r sid start).
    { intros sid. unfold generate_voyage.
      rewrite timedelta_days_zero by (rewrite Hd; ring). simpl.
      rewrite add_zero by assumption. reflexivity. }
    destruct (for_each_total (generate_voyage r start d) (range1 n)) as [vs Hvs].
    { intros sid _. rewrite G. unfold _calculate_voyage. rewrite W; simpl.
      eexists; reflexivity. }
    exists (mkScheduler r start n d vs). split; [|split].
    + unfold VoyageScheduler_init, _generate_voyages. rewrite Hvs; reflexivity.
    + simpl. rewrite (for_each_length _ _ _ Hvs). apply range1_length.
    + simpl. intros v st Hv Hst. apply for_each_Ok in Hvs.
      destruct (Forall2_In_r _ _ _ Hvs _ Hv) as (sid & _ & Hsid).
      rewrite G in Hsid. apply calculate_voyage_inv in Hsid as (w' & W' & ->).
      simpl in Hst. destruct (walk_legs_spec _ _ _ _ W') as (_ & Ch & _).
      eapply chained_from_first; eauto.
Qed.

Lemma departure_spacing_witness :
  (exists v st,
     nth_error (voyages scheduler_two_legs) 2 = Some v /\
     ship_id v = 3 /\ first_item (itinerary v) = Ok st /\
     departure st = river_start + 3 * Datetime.US_PER_DAY) /\
  (exists s,
     VoyageScheduler_init route_river river_start 3 0 = Ok s /\
     List.length (voyages s) = 3%nat /\
     forall v st, In v (voyages s) -> first_item (itinerary v) = Ok st ->
                  departure st = river_start).
Proof.
  split.
  - destruct (proj1 (departure_spacing route_two_legs river_start 3 (3 # 2))
                    scheduler_two_legs 3) as (v & st & td & Hv & Hid & Hst & Htd & Hdep).
    + vm_compute; reflexivity.
    + lia.
    + discriminate.
    + exists v, st. repeat split; try assumption.
      vm_compute in Htd. injection Htd as <-. exact Hdep.
  - apply (proj2 (departure_spacing route_river river_start 3 0)).
    + reflexivity.
    + vm_compute; reflexivity.
    + eexists; vm_compute; reflexivity.
Defined.

(** C8 (duration truncation): the total time of a voyage is the whole
    number of days contained in the time elapsed from the voyage's
    departure to the end of its last operation: the floor of the quotient
    by one day, which for a voyage that does not end before it starts is
    the quotient truncated towards zero.  The fractional remainder is
    dropped. *)
Theorem total_voyage_time_floor r sid dep v :
  _calculate_voyage r sid dep = Ok v ->
  (forall st, first_item (itinerary v) = Ok st -> departure st = dep) /\
  (forall st, last_item (itinerary v) = Ok st ->
              operation_end st = arrival_final v) /\
  (itinerary v = [] -> arrival_final v = dep) /\
  let elapsed := arrival_final v - dep in
  Datetime.US_PER_DAY * total_voyage_time v <= elapsed
    < Datetime.US_PER_DAY * (total_voyage_time v + 1) /\
  (0 <= elapsed -> total_voyage_time v = elapsed ÷ Datetime.US_PER_DAY).
Proof.
  intros H. apply calculate_voyage_inv in H as (w & W & ->); simpl.
  destruct (walk_legs_spec _ _ _ _ W) as (_ & Ch & _).
  split; [|split; [|split; [|split]]].
  - intros st Hst. eapply chained_from_first; eauto.
  - intros st Hst. eapply chained_from_last; eauto.
  - intros E. rewrite E in Ch. exact Ch.
  - apply days_floor.
  - intros Hpos. unfold Datetime.days, Datetime.sub.
    symmetry. apply Z.quot_div_nonneg; [exact Hpos | reflexivity].
Qed.

Lemma total_voyage_time_floor_witness :
  let v := voyage_two_legs in
  (forall st, first_item (itinerary v) = Ok st -> departure st = river_start) /\
  (forall st, last_item (itinerary v) = Ok st ->
              operation_end st = arrival_final v) /\
  (itinerary v = [] -> arrival_final v = river_start) /\
  let elapsed := arrival_final v - river_start in
  Datetime.US_PER_DAY * total_voyage_time v <= elapsed
    < Datetime.US_PER_DAY * (total_voyage_time v + 1) /\
  (0 <= elapsed -> total_voyage_time v = elapsed ÷ Datetime.US_PER_DAY).
Proof.
  apply (total_voyage_time_floor route_two_legs 1 river_start voyage_two_legs).
  vm_compute; reflexivity.
Defined.

(** Seven days and three quarters count as 7 days, where rounding to the
    nearest day would give 8. *)
Example total_voyage_time_not_rounded :
  4 * (arrival_final voyage_two_legs - river_start)
    = 31 * Datetime.US_PER_DAY /\
  total_voyage_time voyage_two_legs = 7.
Proof. split; reflexivity. Qed.

(** ** The cycle length *)

Lemma max_fold_spec (l : list Z) : forall x m,
  fold_left (fun m y => if y >? m then y else m) l x = m ->
  (m = x \/ In m l) /\ x <= m /\ forall y, In y l -> y <= m.
Proof.
  induction l as [|a l IH]; intros x m E; simpl in E.
  - subst m. split; [left; reflexivity|]. split; [lia|]. intros y [].
  - destruct (IH _ _ E) as (I & L & U).
    destruct (Z.gtb_spec a x) as [G|G].
    + split; [destruct I; simpl; auto|]. split; [lia|].
      intros y [<-|Hy]; auto.
    + split; [destruct I; simpl; auto|]. split; [lia|].
      intros y [<-|Hy]; auto. lia.
Qed.

Lemma max_Z_spec (l : list Z) (c : Z) :
  max_Z l = Ok c -> In c l /\ forall y, In y l -> y <= c.
Proof.
  destruct l as [|x l]; simpl; [discriminate|].
  intros H; injection H as <-.
  destruct (max_fold_spec l x _ eq_refl) as (I & L & U). split.
  - destruct I as [->|I]; auto.
  - intros y [<-|Hy]; auto.
Qed.

Lemma for_each_map {A B : Type} (f : A -> result B) (g : A -> B) l :
  (forall x, In x l -> f x = Ok (g x)) -> for_each f l = Ok (map g l).
Proof.
  induction l as [|x l IH]; intros H; simpl; [reflexivity|].
  rewrite H by (left; reflexivity). simpl.
  rewrite IH by (intros; apply H; right; assumption). reflexivity.
Qed.

Lemma latest_arrival (l : list Voyage) :
  l <> [] ->
  exists v, In v l /\ forall v', In v' l -> arrival_final v' <= arrival_final v.
Proof.
  induction l as [|a l IH]; [congruence|]. intros _.
  destruct l as [|b l].
  - exists a; split; [left; reflexivity|]. intros v' [<-|[]]; lia.
  - destruct IH as (v & Hv & U); [discriminate|].
    destruct (Z_le_gt_dec (arrival_final a) (arrival_final v)) as [L|G].
    + exists v; split; [right; exact Hv|].
      intros v' [<-|Hv']; auto.
    + exists a; split; [left; reflexivity|].
      intros v' [<-|Hv']; [lia|]. specialize (U _ Hv'). lia.
Qed.

(** C7 (cycle length): when the river scheduler has a first voyage with a
    first stop, the cycle length is computed, and it is the maximum over
    the voyages of both schedulers of the whole days elapsed between the
    departure of that first stop of the first river voyage and the
    voyage's final arrival; equivalently the floor, in days, of the
    longest such elapsed time. *)
Theorem cycle_length_spec (river sea : VoyageScheduler) (v0 : Voyage) (s0 : Stop) :
  first_item (voyages river) = Ok v0 ->
  first_item (itinerary v0) = Ok s0 ->
  exists c,
    cycle_length river sea = Ok c /\
    (forall v, In v (voyages river ++ voyages sea) ->
               Datetime.days (elapsed_since s0 v) <= c) /\
    (exists v, In v (voyages river ++ voyages sea) /\
               c = Datetime.days (elapsed_since s0 v) /\
               forall v', In v' (voyages river ++ voyages sea) ->
                          elapsed_since s0 v' <= elapsed_since s0 v).
Proof.
  intros H0 Hs0. unfold cycle_length.
  rewrite (for_each_map _ (fun v => Datetime.days (elapsed_since s0 v)))
    by (intros v _; unfold cycle_item; rewrite H0; simpl; rewrite Hs0;
        reflexivity).
  simpl. set (all := voyages river ++ voyages sea).
  assert (Hne : all <> []).
  { apply first_item_Ok in H0 as [l' E]. unfold all. rewrite E. discriminate. }
  destruct (max_Z (map (fun v => Datetime.days (elapsed_since s0 v)) all))
    as [c|e] eqn:M.
  2:{ destruct all; [congruence | discriminate]. }
  exists c. split; [reflexivity|].
  apply max_Z_spec in M as [I U].
  assert (Ub : forall v, In v all -> Datetime.days (elapsed_since s0 v) <= c).
  { intros v Hv. apply U. apply in_map_iff. eauto. }
  split; [exact Ub|].
  destruct (latest_arrival all Hne) as (vm & Hvm & Um).
  exists vm. split; [exact Hvm|]. split.
  - apply in_map_iff in I as (v & <- & Hv).
    apply Z.le_antisymm; [|apply Ub; exact Hvm].
    apply days_monotone. unfold elapsed_since, Datetime.sub.
    specialize (Um _ Hv). lia.
  - intros v' Hv'. unfold elapsed_since, Datetime.sub.
    specialize (Um _ Hv'). lia.
Qed.

Lemma cycle_length_spec_witness :
  exists c,
    cycle_length river_scheduler_default sea_scheduler_default = Ok c /\
    (forall v, In v (voyages river_scheduler_default
                     ++ voyages sea_scheduler_default) ->
               Datetime.days (elapsed_since river_first_stop v) <= c) /\
    (exists v, In v (voyages river_scheduler_default
                     ++ voyages sea_scheduler_default) /\
               c = Datetime.days (elapsed_since river_first_stop v) /\
               forall v', In v' (voyages river_scheduler_default
                                 ++ voyages sea_scheduler_default) ->
                 elapsed_since river_first_stop v'
                 <= elapsed_since river_first_stop v).
Proof.
  apply (cycle_length_spec river_scheduler_default sea_scheduler_default
           (nth 0 (voyages river_scheduler_default) no_voyage)
           river_first_stop); reflexivity.
Defined.

(** The base of the cycle length is the first river departure even when
    the sea fleet leaves earlier: with the river fleet starting on
    2024-04-10 and the sea fleet on 2024-04-01 the cycle length is 8 days
    (2024-04-10 to 2024-04-18), while 17 days separate the earliest
    departure from the latest final arrival. *)
Example cycle_length_base_is_first_river_departure :
  cycle_length river_scheduler_default sea_scheduler_early = Ok 8 /\
  (exists v st, In v (voyages sea_scheduler_early) /\
                first_item (itinerary v) = Ok st /\
                departure st = Datetime.ymd 2024 4 1 /\
                departure st < departure river_first_stop) /\
  (exists v, In v (voyages river_scheduler_default) /\
             arrival_final v = Datetime.ymd 2024 4 18 /\
             Datetime.days (Datetime.sub (arrival_final v)
                                         (Datetime.ymd 2024 4 1)) = 17).
Proof.
  split; [reflexivity|]. split.
  - exists (nth 0 (voyages sea_scheduler_early) no_voyage).
    eexists. split; [left; reflexivity|]. split; [reflexivity|].
    split; reflexivity.
  - exists (nth 2 (voyages river_scheduler_default) no_voyage).
    split; [right; right; left; reflexivity|]. split; reflexivity.
Qed.

(** ** The replay loop *)

Lemma apply_event_entry cap lvl log e :
  apply_event cap (lvl, log) e
  = (next_level cap lvl e, log ++ [entry_for e (next_level cap lvl e)]).
Proof.
  unfold next_level, apply_event, entry_for.
  destruct (ev_type e); reflexivity.
Qed.

Lemma replay_trace cap evs : forall lvl log,
  replay cap (lvl, log) evs = (final_level cap lvl evs, log ++ trace cap lvl evs).
Proof.
  unfold replay.
  induction evs as [|e evs IH]; intros lvl log; cbn [fold_left trace final_level].
  - now rewrite app_nil_r.
  - rewrite apply_event_entry, IH, <- app_assoc. reflexivity.
Qed.

Lemma trace_entries cap evs : forall lvl,
  Forall2 entry_of_event evs (trace cap lvl evs).
Proof.
  induction evs as [|e evs IH]; intros lvl; simpl; constructor; auto.
  unfold entry_of_event, entry_for; simpl. auto.
Qed.

Lemma trace_length cap evs lvl :
  List.length (trace cap lvl evs) = List.length evs.
Proof. symmetry. eapply Forall2_length, trace_entries. Qed.

Lemma next_level_river cap lvl e :
  ev_type e = river_arrival ->
  next_level cap lvl e
  = if Qgtb (lvl + ev_volume e) cap then cap else (lvl + ev_volume e)%Q.
Proof. unfold next_level, apply_event. intros ->. reflexivity. Qed.

Lemma next_level_sea cap lvl e :
  ev_type e = sea_departure ->
  next_level cap lvl e
  = if Qltb (lvl - ev_volume e) 0 then 0%Q else (lvl - ev_volume e)%Q.
Proof. unfold next_level, apply_event. intros ->. reflexivity. Qed.

Lemma Qgtb_spec (x y : Q) : Qgtb x y = true <-> (y < x)%Q.
Proof.
  unfold Qgtb. rewrite negb_true_iff.
  destruct (Qle_bool x y) eqn:E.
  - apply Qle_bool_iff in E. split; [discriminate | intros; exfalso; lra].
  - split; [intros _|reflexivity].
    apply Qnot_le_lt. intros H. apply Qle_bool_iff in H. congruence.
Qed.

Lemma Qltb_spec (x y : Q) : Qltb x y = true <-> (x < y)%Q.
Proof. unfold Qltb. apply (Qgtb_spec y x). Qed.

Lemma Qgtb_false (x y : Q) : Qgtb x y = false <-> (x <= y)%Q.
Proof.
  destruct (Qgtb x y) eqn:E.
  - apply Qgtb_spec in E. split; [discriminate | intros; exfalso; lra].
  - split; [intros _|reflexivity].
    apply Qnot_lt_le. intros H. apply Qgtb_spec in H. congruence.
Qed.

Lemma Qltb_false (x y : Q) : Qltb x y = false <-> (y <= x)%Q.
Proof. unfold Qltb. apply (Qgtb_false y x). Qed.

Lemma next_level_within cap lvl e :
  (0 <= cap)%Q -> (0 <= ev_volume e)%Q -> within cap lvl ->
  within cap (next_level cap lvl e).
Proof.
  unfold within. intros Hc Hv [L U].
  destruct (ev_type e) eqn:T.
  - rewrite next_level_river by assumption.
    destruct (Qgtb (lvl + ev_volume e) cap) eqn:G.
    + split; lra.
    + apply Qgtb_false in G. split; lra.
  - rewrite next_level_sea by assumption.
    destruct (Qltb (lvl - ev_volume e) 0) eqn:G.
    + split; lra.
    + apply Qltb_false in G. split; lra.
Qed.

Lemma trace_within cap evs : forall lvl,
  (0 <= cap)%Q -> Forall (fun e => 0 <= ev_volume e)%Q evs -> within cap lvl ->
  within cap (final_level cap lvl evs) /\
  Forall (fun en => within cap (tank_level en)) (trace cap lvl evs).
Proof.
  induction evs as [|e evs IH]; intros lvl Hc Hv Hl; simpl.
  - split; [assumption | constructor].
  - inversion Hv as [|? ? He Hrest]; subst.
    pose proof (next_level_within cap lvl e Hc He Hl) as Hn.
    destruct (IH _ Hc Hrest Hn) as [F T].
    split; [assumption|]. constructor; assumption.
Qed.

(** ** The sort of the events *)

Lemma insert_event_In e l x : In x (insert_event e l) <-> x = e \/ In x l.
Proof.
  induction l as [|y l IH]; simpl.
  - intuition.
  - destruct (ev_time e <=? ev_time y); simpl; [intuition|].
    rewrite IH. intuition.
Qed.

Lemma insert_event_perm e l : Permutation (e :: l) (insert_event e l).
Proof.
  induction l as [|y l IH]; simpl; [reflexivity|].
  destruct (ev_time e <=? ev_time y); [reflexivity|].
  rewrite perm_swap. now apply perm_skip.
Qed.

Lemma sort_events_perm l : Permutation l (sort_events l).
Proof.
  induction l as [|e l IH]; simpl; [reflexivity|].
  rewrite <- insert_event_perm. now apply perm_skip.
Qed.

Lemma sort_events_In l x : In x (sort_events l) <-> In x l.
Proof.
  split; apply Permutation_in;
    [symmetry; apply sort_events_perm | apply sort_events_perm].
Qed.

Lemma insert_event_sorted e l :
  StronglySorted time_le l -> StronglySorted time_le (insert_event e l).
Proof.
  induction 1 as [|y l S IH F]; simpl.
  - repeat constructor.
  - destruct (Z.leb_spec (ev_time e) (ev_time y)) as [L|G].
    + constructor; [constructor; assumption|].
      constructor; [exact L|].
      rewrite Forall_forall in F |- *. intros x Hx.
      specialize (F x Hx). unfold time_le in *. lia.
    + constructor; [exact IH|].
      rewrite Forall_forall in F |- *. intros x Hx.
      apply insert_event_In in Hx as [->|Hx]; [unfold time_le; lia | auto].
Qed.

Lemma sort_events_sorted l : StronglySorted time_le (sort_events l).
Proof.
  induction l as [|e l IH]; simpl; [constructor | now apply insert_event_sorted].
Qed.

(** The sort is stable: events with the same timestamp keep the order they
    had before the sort. *)
Lemma insert_event_at_time t e l :
  filter (at_time t) (insert_event e l) = filter (at_time t) (e :: l).
Proof.
  induction l as [|y l IH]; [reflexivity|].
  cbn [insert_event].
  destruct (Z.leb_spec (ev_time e) (ev_time y)) as [L|G]; [reflexivity|].
  cbn [filter] in *. rewrite IH. unfold at_time.
  destruct (Z.eqb_spec (ev_time y) t), (Z.eqb_spec (ev_time e) t);
    try reflexivity. lia.
Qed.

Lemma sort_events_stable t l :
  filter (at_time t) (sort_events l) = filter (at_time t) l.
Proof.
  induction l as [|e l IH]; [reflexivity|].
  cbn [sort_events]. rewrite insert_event_at_time.
  cbn [filter]. now rewrite IH.
Qed.

Lemma at_time_refl e : at_time (ev_time e) e = true.
Proof. apply Z.eqb_refl. Qed.

(** Two lists sorted by time in which the events of every timestamp come
    in the same order are equal: a stable sort has a single result. *)
Lemma sorted_stable_unique l1 : forall l2,
  StronglySorted time_le l1 -> StronglySorted time_le l2 ->
  (forall t, filter (at_time t) l1 = filter (at_time t) l2) ->
  l1 = l2.
Proof.
  induction l1 as [|x l1 IH]; intros l2 S1 S2 H.
  - destruct l2 as [|y l2]; [reflexivity|].
    specialize (H (ev_time y)). cbn [filter] in H.
    rewrite at_time_refl in H. discriminate.
  - destruct l2 as [|y l2].
    + specialize (H (ev_time x)). cbn [filter] in H.
      rewrite at_time_refl in H. discriminate.
    + inversion S1 as [|? ? S1' F1]; inversion S2 as [|? ? S2' F2]; subst.
      assert (In1 : In x (y :: l2)).
      { pose proof (H (ev_time x)) as E. cbn [filter] in E.
        rewrite at_time_refl in E.
        assert (I : In x (filter (at_time (ev_time x)) (y :: l2)))
          by (cbn [filter]; rewrite <- E; left; reflexivity).
        apply filter_In in I. tauto. }
      assert (In2 : In y (x :: l1)).
      { pose proof (H (ev_time y)) as E. cbn [filter] in E.
        rewrite at_time_refl in E.
        assert (I : In y (filter (at_time (ev_time y)) (x :: l1)))
          by (cbn [filter]; rewrite E; left; reflexivity).
        apply filter_In in I. tauto. }
      assert (T : ev_time x = ev_time y).
      { rewrite Forall_forall in F1, F2. unfold time_le in *.
        destruct In1 as [->|I1]; [reflexivity|].
        destruct In2 as [->|I2]; [reflexivity|].
        specialize (F1 _ I2). specialize (F2 _ I1). lia. }
      assert (X : x = y).
      { specialize (H (ev_time x)). cbn [filter] in H.
        rewrite at_time_refl in H. rewrite T in H at 2.
        rewrite at_time_refl in H. now injection H. }
      subst y. f_equal. apply IH; try assumption.
      intros t. specialize (H t). cbn [filter] in H.
      destruct (at_time t x); [now injection H | exact H].
Qed.

Lemma sort_events_unique l l' :
  StronglySorted time_le l' ->
  (forall t, filter (at_time t) l' = filter (at_time t) l) ->
  l' = sort_events l.
Proof.
  intros S H. apply sorted_stable_unique; [exact S | apply sort_events_sorted|].
  intros t. now rewrite sort_events_stable.
Qed.

(** Inserting an arrival of the river fleet keeps the order of
    application. *)
Lemma insert_river_applied_before e l :
  ev_type e = river_arrival ->
  StronglySorted applied_before l ->
  StronglySorted applied_before (insert_event e l).
Proof.
  intros Te. induction 1 as [|y l S IH F]; simpl.
  - repeat constructor.
  - destruct (Z.leb_spec (ev_time e) (ev_time y)) as [L|G].
    + constructor; [constructor; assumption|].
      constructor.
      * split; [exact L | congruence].
      * rewrite Forall_forall in F |- *. intros x Hx.
        destruct (F x Hx) as [Lx _]. split; [lia | congruence].
    + constructor; [exact IH|].
      rewrite Forall_forall in F |- *. intros x Hx.
      apply insert_event_In in Hx as [->|Hx]; [|auto].
      split; lia.
Qed.

Lemma sorted_sea_applied_before l :
  Forall (fun e => ev_type e = sea_departure) l ->
  StronglySorted time_le l -> StronglySorted applied_before l.
Proof.
  intros A. induction 1 as [|y l S IH F].
  - constructor.
  - inversion A as [|? ? Ty Al]; subst.
    constructor; [auto|].
    rewrite Forall_forall in F, Al |- *. intros x Hx.
    split; [apply F; assumption | intros _ _; apply Al; assumption].
Qed.

(** However the arrivals and the departures are ordered among themselves
    before the sort, once all arrivals are listed before all departures
    the sorted list is in order of application. *)
Lemma sort_events_inflow_first ins outs :
  Forall (fun e => ev_type e = river_arrival) ins ->
  Forall (fun e => ev_type e = sea_departure) outs ->
  StronglySorted applied_before (sort_events (ins ++ outs)).
Proof.
  intros Hi Ho. induction Hi as [|e ins Te _ IH]; simpl.
  - apply sorted_sea_applied_before; [|apply sort_events_sorted].
    rewrite Forall_forall in Ho |- *. intros x Hx.
    apply Ho. now apply sort_events_In.
  - now apply insert_river_applied_before.
Qed.

Lemma StronglySorted_nth {A : Type} (R : A -> A -> Prop) l :
  StronglySorted R l ->
  forall i j a b, (i < j)%nat ->
    nth_error l i = Some a -> nth_error l j = Some b -> R a b.
Proof.
  induction 1 as [|x l S IH F]; intros i j a b Hij Ha Hb.
  - destruct i; discriminate.
  - destruct j as [|j]; [lia|]. simpl in Hb.
    destruct i as [|i]; simpl in Ha.
    + injection Ha as <-. rewrite Forall_forall in F.
      apply F. eapply nth_error_In; eauto.
    + apply (IH i j a b); [lia | assumption | assumption].
Qed.

(** ** The construction of the events *)

Lemma transfer_port_last r ports tp :
  get_ports r = Ok ports -> last_item ports = Ok tp ->
  exists l, last_item (legs r) = Ok l /\ tp = leg_port_to l.
Proof.
  unfold get_ports. intros H L. inv_bind H. subst ports.
  apply first_item_Ok in Ha as [rest E].
  destruct (last_item_nonempty (legs r)) as [l Hl]; [rewrite E; discriminate|].
  exists l. split; [exact Hl|].
  apply last_item_Ok in Hl as [l' E']. rewrite E' in L.
  rewrite map_app in L. simpl in L.
  change (last_item ((leg_port_from a :: map leg_port_to l') ++ [leg_port_to l])
          = Ok tp) in L.
  rewrite last_item_app in L. now injection L.
Qed.

Lemma river_event_spec tp v e :
  river_event tp v = Ok e <-> inflow_event_of tp v e.
Proof.
  unfold river_event, inflow_event_of. split.
  - intros H. inv_bind H. subst e; simpl. exists a. auto 10.
  - intros (st & -> & T & Ty & S & P & V). simpl.
    destruct e; simpl in *; subst. reflexivity.
Qed.

Lemma sea_event_spec tp v e :
  sea_event tp v = Ok e <-> outflow_event_of tp v e.
Proof.
  unfold sea_event, outflow_event_of. split.
  - intros H. inv_bind H. subst e; simpl. exists a. auto 10.
  - intros (st & -> & T & Ty & S & P & V). simpl.
    destruct e; simpl in *; subst. reflexivity.
Qed.

Lemma build_events_spec river sea evs :
  build_events river sea = Ok evs ->
  exists ports l ins outs,
    get_ports (sched_route river) = Ok ports /\
    last_item ports = Ok (leg_port_to l) /\
    last_item (legs (sched_route river)) = Ok l /\
    evs = ins ++ outs /\
    Forall2 (inflow_event_of (leg_port_to l)) (voyages river) ins /\
    Forall2 (outflow_event_of (leg_port_to l)) (voyages sea) outs.
Proof.
  unfold build_events. intros H. inv_bind H.
  destruct (transfer_port_last _ _ _ Ha Ha0) as (l & Hl & ->).
  exists a, l, a1, a2. do 3 (split; [assumption|]). split; [auto|].
  apply for_each_Ok in Ha1, Ha2. split.
  - eapply Forall2_impl; [|exact Ha1]. intros v e. apply river_event_spec.
  - eapply Forall2_impl; [|exact Ha2]. intros v e. apply sea_event_spec.
Qed.

Lemma Forall2_Forall_r {A B : Type} (R : A -> B -> Prop) (P : B -> Prop) l l' :
  Forall2 R l l' -> (forall x y, In x l -> R x y -> P y) -> Forall P l'.
Proof.
  induction 1 as [|x y l l' Rxy _ IH]; intros H; constructor.
  - apply (H x y); [left; reflexivity | exact Rxy].
  - apply IH. intros x' y' Hx'. apply H. right; exact Hx'.
Qed.

Lemma simulation_inv cap river sea sim :
  TankSimulation_init cap river sea = Ok sim ->
  exists evs,
    build_events river sea = Ok evs /\
    sim = mkTank cap (final_level cap 0 (sort_events evs)) river sea
                 (sort_events evs) (trace cap 0 (sort_events evs)).
Proof.
  unfold TankSimulation_init. intros H. inv_bind H.
  exists a. split; [assumption|]. subst sim.
  rewrite replay_trace. reflexivity.
Qed.

(** The simulation is computed whenever the river route has a leg and
    every voyage has a stop. *)
Lemma simulation_total cap river sea :
  legs (sched_route river) <> [] ->
  (forall v, In v (voyages river ++ voyages sea) -> itinerary v <> []) ->
  exists sim, TankSimulation_init cap river sea = Ok sim.
Proof.
  intros Hl Hv. unfold TankSimulation_init, build_events, get_ports.
  destruct (legs (sched_route river)) as [|l0 ls] eqn:E; [congruence|].
  cbn [first_item bind].
  destruct (last_item_nonempty (leg_port_from l0 :: map leg_port_to (l0 :: ls)))
    as [tp Htp]; [discriminate|].
  rewrite Htp. cbn [bind].
  destruct (for_each_total (river_event tp) (voyages river)) as [ins Hins].
  { intros v Iv. unfold river_event.
    destruct (last_item_nonempty (itinerary v)) as [st Hst].
    - apply Hv. apply in_or_app. left; exact Iv.
    - rewrite Hst. eexists; reflexivity. }
  destruct (for_each_total (sea_event tp) (voyages sea)) as [outs Houts].
  { intros v Iv. unfold sea_event.
    destruct (itinerary v) as [|st rest] eqn:Ei.
    - exfalso. apply (Hv v); [apply in_or_app; right; exact Iv | exact Ei].
    - eexists; reflexivity. }
  rewrite Hins. cbn [bind]. rewrite Houts. cbn [bind].
  eexists; reflexivity.
Qed.

Lemma scheduler_itinerary_length r start n d s v :
  VoyageScheduler_init r start n d = Ok s -> In v (voyages s) ->
  List.length (itinerary v) = List.length (legs r) /\
  capacity v = ship_capacity r.
Proof.
  intros H Hv.
  destruct (scheduler_voyage_inv _ _ _ _ _ _ H Hv) as (sid & td & _ & _ & C).
  apply calculate_voyage_inv in C as (w & W & ->); simpl.
  destruct (walk_legs_spec _ _ _ _ W) as (_ & _ & L). auto.
Qed.

(** In particular for two schedulers built over routes that have legs. *)
Lemma simulation_total_built cap r1 start1 n1 d1 river r2 start2 n2 d2 sea :
  VoyageScheduler_init r1 start1 n1 d1 = Ok river ->
  VoyageScheduler_init r2 start2 n2 d2 = Ok sea ->
  legs r1 <> [] -> legs r2 <> [] ->
  exists sim, TankSimulation_init cap river sea = Ok sim.
Proof.
  intros H1 H2 L1 L2. apply simulation_total.
  - apply scheduler_voyages in H1 as (-> & _). exact L1.
  - intros v Hv E. apply in_app_or in Hv as [Hv|Hv].
    + destruct (scheduler_itinerary_length _ _ _ _ _ _ H1 Hv) as [Len _].
      rewrite E in Len. destruct (legs r1); [congruence | discriminate].
    + destruct (scheduler_itinerary_length _ _ _ _ _ _ H2 Hv) as [Len _].
      rewrite E in Len. destruct (legs r2); [congruence | discriminate].
Qed.

Lemma build_events_volumes river sea evs :
  build_events river sea = Ok evs ->
  (forall v, In v (voyages river ++ voyages sea) -> (0 <= capacity v)%Q) ->
  Forall (fun e => 0 <= ev_volume e)%Q evs.
Proof.
  intros H Hv.
  apply build_events_spec in H as (ports & l & ins & outs & _ & _ & _ & -> & Fi & Fo).
  apply Forall_app. split.
  - eapply Forall2_Forall_r; [exact Fi|].
    intros v e Iv (st & _ & _ & _ & _ & _ & ->).
    apply Hv, in_or_app. left; exact Iv.
  - eapply Forall2_Forall_r; [exact Fo|].
    intros v e Iv (st & _ & _ & _ & _ & _ & ->).
    apply Hv, in_or_app. right; exact Iv.
Qed.

Lemma build_events_types river sea evs :
  build_events river sea = Ok evs ->
  exists ins outs, evs = ins ++ outs /\
    Forall (fun e => ev_type e = river_arrival) ins /\
    Forall (fun e => ev_type e = sea_departure) outs.
Proof.
  intros H.
  apply build_events_spec in H as (ports & l & ins & outs & _ & _ & _ & -> & Fi & Fo).
  exists ins, outs. split; [reflexivity|]. split.
  - eapply Forall2_Forall_r; [exact Fi|]. intros v e _ (st & _ & _ & T & _). exact T.
  - eapply Forall2_Forall_r; [exact Fo|]. intros v e _ (st & _ & _ & T & _). exact T.
Qed.

(** ** The buffer level *)

(** C1 (clamping): for a buffer of non-negative capacity and vessels of
    non-negative capacity (the volumes of the events), the level recorded
    in every entry of the log, and the final level, lie between 0 and the
    capacity of the buffer. *)
Theorem level_within_capacity cap river sea sim :
  TankSimulation_init cap river sea = Ok sim ->
  (0 <= cap)%Q ->
  (forall v, In v (voyages river ++ voyages sea) -> (0 <= capacity v)%Q) ->
  Forall (fun en => 0 <= tank_level en /\ tank_level en <= cap)%Q
         (tank_log sim) /\
  (0 <= level sim /\ level sim <= cap)%Q.
Proof.
  intros H Hc Hv.
  apply simulation_inv in H as (evs & B & ->); simpl.
  pose proof (build_events_volumes _ _ _ B Hv) as V.
  assert (V' : Forall (fun e => 0 <= ev_volume e)%Q (sort_events evs)).
  { rewrite Forall_forall in V |- *. intros e He.
    apply V. now apply sort_events_In. }
  destruct (trace_within cap (sort_events evs) 0 Hc V') as [F T].
  - split; lra.
  - split; [exact T | exact F].
Qed.

Lemma level_within_capacity_witness :
  Forall (fun en => 0 <= tank_level en /\ tank_level en <= 100)%Q
         (tank_log tank_sim_default) /\
  (0 <= level tank_sim_default /\ level tank_sim_default <= 100)%Q.
Proof.
  apply (level_within_capacity 100 river_scheduler_default
                               sea_scheduler_default tank_sim_default).
  - vm_compute; reflexivity.
  - lra.
  - intros v Hv. simpl in Hv.
    repeat (destruct Hv as [<-|Hv]; [simpl; lra|]). contradiction.
Defined.

(** The sign conditions are needed: a vessel of negative capacity takes
    the level below 0, which the loop only clamps at the capacity for
    arrivals. *)
Example negative_volume_leaves_range :
  snd (replay 100 (0%Q, [])
              [mkEvent 0 river_arrival "Ship_1" "PortB" (-5)])
  = [mkLog 0 "Ship_1" (Unload_river (-5)) (0 + -5) "PortB"].
Proof. reflexivity. Qed.

(** ** The events of a simulation *)

(** C4 (event construction): the events of a simulation are, up to the
    sort, one event per voyage of the river scheduler followed by one
    event per voyage of the sea scheduler.  The event of a river voyage is
    an arrival timestamped at the arrival of the voyage's last stop; the
    event of a sea voyage is a departure timestamped at the departure of
    the voyage's first stop; both carry the voyage's capacity as volume
    and the last port of the river route, [get_ports()[-1]], as port.
    Every event is logged once, in the order of the sorted events. *)
Theorem events_per_voyage cap river sea sim :
  TankSimulation_init cap river sea = Ok sim ->
  exists ports l ins outs,
    get_ports (sched_route river) = Ok ports /\
    last_item ports = Ok (leg_port_to l) /\
    last_item (legs (sched_route river)) = Ok l /\
    Forall2 (inflow_event_of (leg_port_to l)) (voyages river) ins /\
    Forall2 (outflow_event_of (leg_port_to l)) (voyages sea) outs /\
    events sim = sort_events (ins ++ outs) /\
    Permutation (ins ++ outs) (events sim) /\
    Forall2 entry_of_event (events sim) (tank_log sim).
Proof.
  intros H. apply simulation_inv in H as (evs & B & ->); simpl.
  apply build_events_spec in B
    as (ports & l & ins & outs & P & Lp & Ll & -> & Fi & Fo).
  exists ports, l, ins, outs. do 5 (split; [assumption|]).
  split; [reflexivity|]. split; [apply sort_events_perm | apply trace_entries].
Qed.

Lemma events_per_voyage_witness :
  exists ports l ins outs,
    get_ports (sched_route river_scheduler_default) = Ok ports /\
    last_item ports = Ok (leg_port_to l) /\
    last_item (legs (sched_route river_scheduler_default)) = Ok l /\
    Forall2 (inflow_event_of (leg_port_to l))
            (voyages river_scheduler_default) ins /\
    Forall2 (outflow_event_of (leg_port_to l))
            (voyages sea_scheduler_tie) outs /\
    events tank_sim_tie = sort_events (ins ++ outs) /\
    Permutation (ins ++ outs) (events tank_sim_tie) /\
    Forall2 entry_of_event (events tank_sim_tie) (tank_log tank_sim_tie).
Proof.
  apply (events_per_voyage 100 river_scheduler_default sea_scheduler_tie
                           tank_sim_tie).
  vm_compute; reflexivity.
Defined.

(** C5 (order of application): the events of a simulation are applied and
    logged in ascending order of time, and an arrival of the river fleet
    is applied before a departure of the sea fleet that has the same
    timestamp.  The sorted list is the one result a stable sort by time
    can give for the list of all arrivals followed by all departures. *)
Theorem inflow_first_on_tie cap river sea sim :
  TankSimulation_init cap river sea = Ok sim ->
  Forall2 entry_of_event (events sim) (tank_log sim) /\
  (forall i j a b, (i < j)%nat ->
     nth_error (events sim) i = Some a -> nth_error (events sim) j = Some b ->
     ev_time a <= ev_time b) /\
  (forall i j a b,
     nth_error (events sim) i = Some a -> nth_error (events sim) j = Some b ->
     ev_time a = ev_time b ->
     ev_type a = river_arrival -> ev_type b = sea_departure ->
     (i < j)%nat) /\
  (exists ins outs,
     build_events river sea = Ok (ins ++ outs) /\
     Forall (fun e => ev_type e = river_arrival) ins /\
     Forall (fun e => ev_type e = sea_departure) outs /\
     forall l', StronglySorted time_le l' ->
       (forall t, filter (at_time t) l' = filter (at_time t) (ins ++ outs)) ->
       l' = events sim).
Proof.
  intros H. apply simulation_inv in H as (evs & B & ->); simpl.
  destruct (build_events_types _ _ _ B) as (ins & outs & -> & Ti & To).
  pose proof (sort_events_inflow_first ins outs Ti To) as S.
  split; [apply trace_entries|]. split; [|split].
  - intros i j a b Hij Ha Hb.
    apply (StronglySorted_nth _ _ S i j a b Hij Ha Hb).
  - intros i j a b Ha Hb Ht Tya Tyb.
    destruct (Nat.lt_trichotomy i j) as [L|[E|G]]; [exact L| |].
    + subst j. rewrite Ha in Hb. injection Hb as <-. congruence.
    + destruct (StronglySorted_nth _ _ S j i b a G Hb Ha) as [_ Tie].
      rewrite Tie in Tya by auto. discriminate.
  - exists ins, outs. do 3 (split; [assumption|]).
    intros l' S' St. now apply sort_events_unique.
Qed.

Lemma inflow_first_on_tie_witness :
  exists a b,
    nth_error (events tank_sim_tie) 1 = Some a /\
    nth_error (events tank_sim_tie) 2 = Some b /\
    ev_time a = Datetime.ymd 2024 4 16 /\ ev_time b = Datetime.ymd 2024 4 16 /\
    ev_type a = river_arrival /\ ev_type b = sea_departure /\
    Forall2 entry_of_event (events tank_sim_tie) (tank_log tank_sim_tie) /\
    (forall i j, nth_error (events tank_sim_tie) i = Some a ->
                 nth_error (events tank_sim_tie) j = Some b -> (i < j)%nat).
Proof.
  destruct (inflow_first_on_tie 100 river_scheduler_default sea_scheduler_tie
                                tank_sim_tie) as (F & _ & Tie & _).
  - vm_compute; reflexivity.
  - eexists; eexists. split; [reflexivity|]. split; [reflexivity|].
    do 4 (split; [reflexivity|]). split; [exact F|].
    intros i j Ha Hb. apply (Tie i j _ _ Ha Hb); reflexivity.
Defined.

(** ** Conservation *)

Lemma signed_volume_split e :
  (signed_volume e == inflow_volume e - outflow_volume e)%Q.
Proof.
  unfold signed_volume, inflow_volume, outflow_volume.
  destruct (ev_type e); lra.
Qed.

Lemma net_volume_total evs :
  (net_volume evs == total_inflow evs - total_outflow evs)%Q.
Proof.
  unfold net_volume, total_inflow, total_outflow.
  induction evs as [|e evs IH]; cbn [map Qsum fold_right].
  - lra.
  - pose proof (signed_volume_split e) as E.
    fold (Qsum (map signed_volume evs)).
    fold (Qsum (map inflow_volume evs)).
    fold (Qsum (map outflow_volume evs)).
    lra.
Qed.

Lemma net_volume_cons e evs :
  (net_volume (e :: evs) == signed_volume e + net_volume evs)%Q.
Proof. unfold net_volume. cbn [map Qsum fold_right]. reflexivity. Qed.

Lemma next_level_unclamped cap lvl e :
  (0 <= lvl + signed_volume e)%Q -> (lvl + signed_volume e <= cap)%Q ->
  (next_level cap lvl e == lvl + signed_volume e)%Q.
Proof.
  unfold signed_volume. destruct (ev_type e) eqn:T; intros L U.
  - rewrite next_level_river by assumption.
    destruct (Qgtb (lvl + ev_volume e) cap) eqn:G; [|lra].
    apply Qgtb_spec in G. lra.
  - rewrite next_level_sea by assumption.
    destruct (Qltb (lvl - ev_volume e) 0) eqn:G; [|lra].
    apply Qltb_spec in G. lra.
Qed.

Lemma trace_unclamped cap evs : forall lvl,
  (forall n, (1 <= n <= List.length evs)%nat ->
     (0 <= lvl + net_volume (firstn n evs)
      /\ lvl + net_volume (firstn n evs) <= cap)%Q) ->
  (final_level cap lvl evs == lvl + net_volume evs)%Q /\
  forall n en, nth_error (trace cap lvl evs) n = Some en ->
    (tank_level en == lvl + net_volume (firstn (S n) evs))%Q.
Proof.
  induction evs as [|e evs IH]; intros lvl H.
  - split; [unfold net_volume; simpl; lra|]. intros [|n] en; discriminate.
  - assert (E1 : (next_level cap lvl e == lvl + signed_volume e)%Q).
    { destruct (H 1%nat) as [L U]; [simpl; lia|].
      simpl firstn in L, U. rewrite net_volume_cons in L, U.
      unfold net_volume in L, U; simpl in L, U.
      apply next_level_unclamped; lra. }
    destruct (IH (next_level cap lvl e)) as [F T].
    { intros n Hn. destruct (H (S n)) as [L U]; [simpl; lia|].
      simpl firstn in L, U. rewrite net_volume_cons in L, U.
      rewrite E1. split; lra. }
    split.
    + cbn [final_level]. rewrite F, E1, net_volume_cons. lra.
    + intros [|n] en Hen; cbn [trace nth_error] in Hen.
      * injection Hen as <-. cbn [tank_level entry_for firstn].
        rewrite E1, net_volume_cons. unfold net_volume; simpl. lra.
      * rewrite (T n en Hen), E1.
        change (firstn (S (S n)) (e :: evs)) with (e :: firstn (S n) evs).
        rewrite net_volume_cons. lra.
Qed.

Lemma build_events_volumes_of (P : Q -> Prop) river sea evs :
  build_events river sea = Ok evs ->
  (forall v, In v (voyages river ++ voyages sea) -> P (capacity v)) ->
  Forall (fun e => P (ev_volume e)) evs.
Proof.
  intros H Hv.
  apply build_events_spec in H as (ports & l & ins & outs & _ & _ & _ & -> & Fi & Fo).
  apply Forall_app. split.
  - eapply Forall2_Forall_r; [exact Fi|].
    intros v e Iv (st & _ & _ & _ & _ & _ & ->).
    apply Hv, in_or_app. left; exact Iv.
  - eapply Forall2_Forall_r; [exact Fo|].
    intros v e Iv (st & _ & _ & _ & _ & _ & ->).
    apply Hv, in_or_app. right; exact Iv.
Qed.

Lemma net_volume_whole evs :
  Forall (fun e => exists z : Z, ev_volume e = inject_Z z) evs ->
  exists z : Z, (net_volume evs == inject_Z z)%Q.
Proof.
  induction 1 as [|e evs [z Hz] _ [z' IH]].
  - exists 0. reflexivity.
  - destruct (ev_type e) eqn:T.
    + exists (z + z'). rewrite net_volume_cons, IH, inject_Z_plus.
      unfold signed_volume. rewrite T, Hz. reflexivity.
    + exists (- z + z'). rewrite net_volume_cons, IH, inject_Z_plus, inject_Z_opp.
      unfold signed_volume. rewrite T, Hz. reflexivity.
Qed.

(** C6 (conservation), as the code has it.  The level is accumulated
    event by event with the program's own additions and subtractions;
    these are exact when the vessel capacities (the volumes of the
    events) are whole numbers and the capacity of the buffer is at most
    [2^53]: Python integers add exactly, and so do binary64 floats on
    whole numbers up to [2^53].  Then, when cumulative inflow minus
    cumulative outflow stays between 0 and the capacity after each event,
    in the order of application, no clamping happens: each entry of the
    log records the net volume so far, a whole number between 0 and
    [2^53], and the final level is the total inflow minus the total
    outflow.  For volumes that are not whole numbers the float replay
    can end elsewhere, as the example after the theorem shows. *)
Theorem conservation_without_clamping cap river sea sim :
  TankSimulation_init cap river sea = Ok sim ->
  (forall v, In v (voyages river ++ voyages sea) ->
             exists z : Z, capacity v = inject_Z z) ->
  (cap <= inject_Z (2 ^ 53))%Q ->
  (forall n, (1 <= n <= List.length (events sim))%nat ->
     (0 <= net_volume (firstn n (events sim))
      /\ net_volume (firstn n (events sim)) <= cap)%Q) ->
  (level sim == total_inflow (events sim) - total_outflow (events sim))%Q /\
  (forall n en, nth_error (tank_log sim) n = Some en ->
     (tank_level en == net_volume (firstn (S n) (events sim)))%Q /\
     exists z : Z, 0 <= z <= 2 ^ 53 /\ (tank_level en == inject_Z z)%Q).
Proof.
  intros H W C. pose proof H as H'.
  apply simulation_inv in H as (evs & B & ->).
  cbn [level events tank_log]. intros P.
  destruct (trace_unclamped cap (sort_events evs) 0) as [F T].
  { intros n Hn. destruct (P n Hn). split; lra. }
  split.
  - rewrite F, net_volume_total. lra.
  - intros n en Hen.
    assert (E : (tank_level en
                 == net_volume (firstn (S n) (sort_events evs)))%Q)
      by (rewrite (T n en Hen); lra).
    split; [exact E|].
    assert (Wn : Forall (fun e => exists z : Z, ev_volume e = inject_Z z)
                        (firstn (S n) (sort_events evs))).
    { pose proof (build_events_volumes_of
                    (fun q => exists z : Z, q = inject_Z z) _ _ _ B W) as V.
      rewrite Forall_forall in V |- *. intros e He.
      apply V. apply sort_events_In.
      rewrite <- (firstn_skipn (S n) (sort_events evs)).
      apply in_or_app. left; exact He. }
    destruct (net_volume_whole _ Wn) as [z Hz].
    assert (Hn : (1 <= S n <= List.length (sort_events evs))%nat).
    { split; [lia|]. apply Nat.le_succ_l.
      rewrite <- (trace_length cap (sort_events evs) 0).
      apply nth_error_Some. congruence. }
    destruct (P (S n) Hn) as [L U].
    exists z. split; [|rewrite E; exact Hz].
    rewrite Hz in L, U.
    assert (U' : (inject_Z z <= inject_Z (2 ^ 53))%Q) by lra.
    change 0%Q with (inject_Z 0) in L.
    rewrite <- Zle_Qle in L, U'. lia.
Qed.

Lemma conservation_without_clamping_witness :
  (level tank_sim_tie
   == total_inflow (events tank_sim_tie)
      - total_outflow (events tank_sim_tie))%Q /\
  (forall n en, nth_error (tank_log tank_sim_tie) n = Some en ->
     (tank_level en == net_volume (firstn (S n) (events tank_sim_tie)))%Q /\
     exists z : Z, 0 <= z <= 2 ^ 53 /\ (tank_level en == inject_Z z)%Q).
Proof.
  apply (conservation_without_clamping 100 river_scheduler_default
                                       sea_scheduler_tie tank_sim_tie).
  - vm_compute; reflexivity.
  - intros v Hv. simpl in Hv.
    repeat (destruct Hv as [<-|Hv]; [eexists; reflexivity|]). contradiction.
  - apply Qle_bool_iff; vm_compute; reflexivity.
  - intros n Hn. change (1 <= n <= 6)%nat in Hn.
    do 7 (destruct n as [|n];
          [try lia; split; apply Qle_bool_iff; vm_compute; reflexivity|]).
    lia.
Defined.

(** With volumes that are not whole numbers the conservation fails in the
    program's arithmetic.  Four arrivals and two departures of 0.1 in a
    buffer of 1000, the arrivals first: after every event the cumulative
    inflow minus the cumulative outflow lies between 0 and 1000, for the
    numbers 1/10 as for the exact values of the floats; the float replay
    logs levels strictly between 0 and 1000 and never clamps; yet it ends
    at 0.20000000000000004 (mantissa 7205759403792795, exponent -55), one
    unit in the last place above the float 0.2 (mantissa 7205759403792794)
    that the total inflow minus the total outflow is, computed in floats
    or exactly. *)
Lemma float_replay_not_conserved :
  let evs := float_events (events tank_sim_tenth) in
  let cap := Binary64.of_Z 1000 in
  TankSimulation_init 1000 river_scheduler_tenth sea_scheduler_tenth
  = Ok tank_sim_tenth /\
  evs = [(river_arrival, Binary64.of_Q (1 # 10));
         (river_arrival, Binary64.of_Q (1 # 10));
         (river_arrival, Binary64.of_Q (1 # 10));
         (river_arrival, Binary64.of_Q (1 # 10));
         (sea_departure, Binary64.of_Q (1 # 10));
         (sea_departure, Binary64.of_Q (1 # 10))] /\
  (forall n, (1 <= n <= List.length (events tank_sim_tenth))%nat ->
     (0 <= net_volume (firstn n (events tank_sim_tenth))
      /\ net_volume (firstn n (events tank_sim_tenth)) <= 1000)%Q /\
     (0 <= net_volume_float (firstn n evs)
      /\ net_volume_float (firstn n evs) <= 1000)%Q) /\
  forallb (fun lvl => Binary64.ltb Binary64.zero lvl && Binary64.ltb lvl cap)
          (snd (replay_float cap evs)) = true /\
  fst (replay_float cap evs) = S754_finite false 7205759403792795 (-55) /\
  Binary64.sub (total_inflow_float evs) (total_outflow_float evs)
  = S754_finite false 7205759403792794 (-55) /\
  Binary64.of_Q (2 # 10) = S754_finite false 7205759403792794 (-55) /\
  Binary64.eqb (fst (replay_float cap evs))
               (Binary64.sub (total_inflow_float evs)
                             (total_outflow_float evs)) = false /\
  ~ (Binary64.to_Q (fst (replay_float cap evs)) == net_volume_float evs)%Q.
Proof.
  cbv zeta.
  split; [vm_compute; reflexivity|].
  split; [vm_compute; reflexivity|].
  split.
  { intros n Hn. change (1 <= n <= 6)%nat in Hn.
    do 7 (destruct n as [|n];
          [try lia; repeat split; apply Qle_bool_iff; vm_compute; reflexivity|]).
    lia. }
  split; [vm_compute; reflexivity|].
  split; [vm_compute; reflexivity|].
  split; [vm_compute; reflexivity|].
  split; [vm_compute; reflexivity|].
  split; [vm_compute; reflexivity|].
  intros E. apply Qeq_bool_iff in E. vm_compute in E. discriminate.
Qed.

(** On whole numbers the two replays agree: in the scenario of the tie
    (vessels of 30 and 25 units, buffer of 100) the float replay logs the
    levels 30, 60, 35, 65, 40, 15 of the exact replay. *)
Example float_replay_whole_numbers :
  map (fun lvl => Qred (Binary64.to_Q lvl))
      (snd (replay_float (Binary64.of_Z 100)
                         (float_events (events tank_sim_tie))))
  = [30 # 1; 60 # 1; 35 # 1; 65 # 1; 40 # 1; 15 # 1]
  /\ map (fun en => Qred (tank_level en)) (tank_log tank_sim_tie)
     = [30 # 1; 60 # 1; 35 # 1; 65 # 1; 40 # 1; 15 # 1].
Proof. vm_compute. split; reflexivity. Qed.

(** ** Metrics over the log *)

Lemma simulation_log_length cap river sea sim :
  TankSimulation_init cap river sea = Ok sim ->
  List.length (tank_log sim)
  = (List.length (voyages river) + List.length (voyages sea))%nat.
Proof.
  intros H. apply simulation_inv in H as (evs & B & ->).
  cbn [tank_log]. rewrite trace_length.
  rewrite <- (Permutation_length (sort_events_perm evs)).
  apply build_events_spec in B
    as (ports & l & ins & outs & _ & _ & _ & -> & Fi & Fo).
  rewrite length_app.
  now rewrite (Forall2_length Fi), (Forall2_length Fo).
Qed.

Lemma max_Q_nonempty (l : list Q) : l <> [] -> exists m, max_Q l = Ok m.
Proof. destruct l; [congruence|]. intros _. eexists; reflexivity. Qed.

Lemma min_Q_nonempty (l : list Q) : l <> [] -> exists m, min_Q l = Ok m.
Proof. destruct l; [congruence|]. intros _. eexists; reflexivity. Qed.

(** C9, as the code has it: the log of a simulation is empty exactly when
    both fleets have no voyage; over an empty log the maximum and the
    minimum level, and with them the summaries of the two exports, fail
    with the [ValueError] of [max()] on an empty list; over a log that is
    not empty, also when one fleet has no voyage, the maximum and the
    minimum are computed. *)
Theorem metrics_on_empty_log cap river sea sim :
  TankSimulation_init cap river sea = Ok sim ->
  (tank_log sim = [] <-> voyages river = [] /\ voyages sea = []) /\
  (tank_log sim = [] ->
     max_level sim = Raise ValueError /\
     min_level sim = Raise ValueError /\
     summary_metrics river sea sim = Raise ValueError /\
     pdf_metrics sim = Raise ValueError) /\
  (tank_log sim <> [] ->
     exists mx mn, max_level sim = Ok mx /\ min_level sim = Ok mn /\
                   pdf_metrics sim = Ok (mx, mn)).
Proof.
  intros H. pose proof (simulation_log_length _ _ _ _ H) as Len.
  split; [|split].
  - split.
    + intros E. rewrite E in Len. simpl in Len.
      destruct (voyages river), (voyages sea); try discriminate. auto.
    + intros [E1 E2]. rewrite E1, E2 in Len.
      destruct (tank_log sim); [reflexivity | discriminate].
  - intros E. unfold summary_metrics, pdf_metrics, max_level, min_level.
    rewrite E. simpl. auto.
  - intros NE. unfold pdf_metrics, max_level, min_level.
    destruct (max_Q_nonempty (map tank_level (tank_log sim))) as [mx Hmx].
    { destruct (tank_log sim); [congruence | discriminate]. }
    destruct (min_Q_nonempty (map tank_level (tank_log sim))) as [mn Hmn].
    { destruct (tank_log sim); [congruence | discriminate]. }
    exists mx, mn. rewrite Hmx, Hmn. auto.
Qed.

Lemma metrics_on_empty_log_witness :
  max_level tank_sim_empty = Raise ValueError /\
  min_level tank_sim_empty = Raise ValueError /\
  summary_metrics river_scheduler_empty sea_scheduler_empty tank_sim_empty
  = Raise ValueError /\
  pdf_metrics tank_sim_empty = Raise ValueError.
Proof.
  apply (metrics_on_empty_log 100 river_scheduler_empty sea_scheduler_empty
                              tank_sim_empty).
  - vm_compute; reflexivity.
  - reflexivity.
Defined.

(** Over the empty log of two fleets without vessels the maximum is
    refused with the [ValueError] of [max()], not with an error of its
    own; and with a sea fleet without vessels alone (the river fleet
    having three) nothing is refused: the metrics are computed. *)
Lemma metrics_no_distinct_error :
  tank_log tank_sim_empty = [] /\
  ~ signals_no_data (max_level tank_sim_empty) /\
  ~ signals_no_data (min_level tank_sim_empty) /\
  ~ signals_no_data
      (summary_metrics river_scheduler_empty sea_scheduler_empty
                       tank_sim_empty) /\
  num_ships sea_scheduler_empty = 0 /\
  TankSimulation_init 100 river_scheduler_default sea_scheduler_empty
  = Ok tank_sim_no_sea /\
  ~ rejected (summary_metrics river_scheduler_default sea_scheduler_empty
                              tank_sim_no_sea).
Proof.
  split; [reflexivity|].
  repeat split; try reflexivity;
    try (intros (e & E & NE); vm_compute in E; congruence).
  intros (e & E). vm_compute in E. discriminate.
Qed.

(** ** Construction and errors *)

Lemma timedelta_days_Raise q e :
  Datetime.timedelta_days q = Raise e -> e = OverflowError.
Proof.
  unfold Datetime.timedelta_days.
  destruct (Datetime.valid_timedelta _); [discriminate|].
  intros H; now injection H.
Qed.

Lemma add_Raise t td e : Datetime.add t td = Raise e -> e = OverflowError.
Proof.
  unfold Datetime.add.
  destruct (Datetime.valid_datetime _); [discriminate|].
  intros H; now injection H.
Qed.

Lemma first_item_Raise {A : Type} (l : list A) e :
  first_item l = Raise e -> e = IndexError.
Proof. destruct l; simpl; [intros H; now injection H | discriminate]. Qed.

Lemma last_item_Raise {A : Type} (l : list A) e :
  last_item l = Raise e -> e = IndexError.
Proof.
  destruct l as [|x l]; [intros H; now injection H|].
  destruct (last_item_nonempty (x :: l)) as [y Hy]; [discriminate|].
  rewrite Hy. discriminate.
Qed.

(** Splits a hypothesis [x <- m ;; k = Raise e] into the step that
    raises. *)
Ltac raise_cases H :=
  match type of H with
  | bind _ _ = Raise _ =>
      let a := fresh "a" in
      let Ha := fresh "Ha" in
      apply bind_Raise in H; destruct H as [H | (a & Ha & H)];
      [|raise_cases H]
  | _ => idtac
  end.

Lemma walk_legs_Raise ls : forall i t e,
  walk_legs i t ls = Raise e -> e = OverflowError.
Proof.
  induction ls as [|l ls IH]; intros i t e H; simpl in H; [discriminate|].
  raise_cases H;
    eauto using timedelta_days_Raise, add_Raise; discriminate.
Qed.

Lemma generate_voyage_Raise r start d sid e :
  generate_voyage r start d sid = Raise e -> e = OverflowError.
Proof.
  unfold generate_voyage, _calculate_voyage. intros H.
  raise_cases H;
    eauto using timedelta_days_Raise, add_Raise, walk_legs_Raise; discriminate.
Qed.

Lemma scheduler_Raise r start n d e :
  VoyageScheduler_init r start n d = Raise e -> e = OverflowError.
Proof.
  unfold VoyageScheduler_init, _generate_voyages. intros H.
  raise_cases H; [|discriminate].
  apply for_each_Raise in H as (sid & _ & H).
  eapply generate_voyage_Raise; eauto.
Qed.

Lemma get_ports_Raise r e : get_ports r = Raise e -> e = IndexError.
Proof.
  unfold get_ports. intros H.
  raise_cases H; [eauto using first_item_Raise | discriminate].
Qed.

Lemma river_event_Raise tp v e : river_event tp v = Raise e -> e = IndexError.
Proof.
  unfold river_event. intros H.
  raise_cases H; [eauto using last_item_Raise | discriminate].
Qed.

Lemma sea_event_Raise tp v e : sea_event tp v = Raise e -> e = IndexError.
Proof.
  unfold sea_event. intros H.
  raise_cases H; [eauto using first_item_Raise | discriminate].
Qed.

Lemma build_events_Raise river sea e :
  build_events river sea = Raise e -> e = IndexError.
Proof.
  unfold build_events. intros H.
  apply bind_Raise in H as [H | (ports & _ & H)];
    [eauto using get_ports_Raise|].
  apply bind_Raise in H as [H | (tp & _ & H)];
    [eauto using last_item_Raise|].
  apply bind_Raise in H as [H | (ins & _ & H)].
  { apply for_each_Raise in H as (v & _ & H). eauto using river_event_Raise. }
  apply bind_Raise in H as [H | (outs & _ & H)]; [|discriminate].
  apply for_each_Raise in H as (v & _ & H). eauto using sea_event_Raise.
Qed.

Lemma simulation_Raise cap river sea e :
  TankSimulation_init cap river sea = Raise e -> e = IndexError.
Proof.
  unfold TankSimulation_init. intros H.
  apply bind_Raise in H as [H | (evs & _ & H)]; [|discriminate].
  eauto using build_events_Raise.
Qed.

Lemma scheduler_without_legs r start n d s :
  VoyageScheduler_init r start n d = Ok s ->
  exists s',
    VoyageScheduler_init (mkRoute (route_name r) [] (ship_capacity r))
                         start n d = Ok s' /\
    List.length (voyages s') = Z.to_nat n /\
    forall v, In v (voyages s') ->
              itinerary v = [] /\ total_voyage_time v = 0.
Proof.
  intros H. apply scheduler_voyages in H as (_ & _ & _ & _ & F).
  set (r0 := mkRoute (route_name r) [] (ship_capacity r)).
  destruct (for_each_total (generate_voyage r0 start d) (range1 n)) as [vs Hvs].
  { intros sid Hsid. apply In_nth_error in Hsid as [i Hi].
    destruct (Forall2_nth_error _ _ _ F _ _ Hi) as (v & _ & G).
    apply generate_voyage_inv in G as (td & T & V & _).
    unfold generate_voyage. rewrite T. cbn [bind].
    unfold Datetime.add. rewrite V. cbn [bind].
    eexists; reflexivity. }
  exists (mkScheduler r0 start n d vs). split; [|split].
  - unfold VoyageScheduler_init, _generate_voyages. rewrite Hvs. reflexivity.
  - cbn [voyages]. rewrite (for_each_length _ _ _ Hvs). apply range1_length.
  - cbn [voyages]. intros v Hv. apply for_each_Ok in Hvs.
    destruct (Forall2_In_r _ _ _ Hvs _ Hv) as (sid & _ & G).
    apply generate_voyage_inv in G as (td & _ & _ & C).
    apply calculate_voyage_inv in C as (w & W & ->).
    simpl in W. injection W as <-. simpl.
    split; [reflexivity|]. unfold Datetime.sub, Datetime.days.
    rewrite Z.sub_diag. reflexivity.
Qed.

Lemma simulation_any_capacity cap cap' river sea sim :
  TankSimulation_init cap river sea = Ok sim ->
  exists sim', TankSimulation_init cap' river sea = Ok sim' /\
               tank_capacity sim' = cap' /\ events sim' = events sim.
Proof.
  intros H. apply simulation_inv in H as (evs & B & ->).
  unfold TankSimulation_init. rewrite B. cbn [bind].
  eexists. split; [reflexivity|]. split; reflexivity.
Qed.

(** C10, as the code has it: the constructors validate nothing.  A vessel
    count of zero or less gives a scheduler without voyages; without legs
    a scheduler is built whenever it is built with legs, its voyages
    having no stop and a total time of 0; a simulation that is built with
    one capacity is built with any other, positive or not, over the same
    events.  The only failures are the [OverflowError] of the date
    arithmetic in the scheduler and the [IndexError] of indexing an empty
    list of legs or of stops in the simulation. *)
Theorem construction_without_validation :
  (forall r start n d,
     n <= 0 -> VoyageScheduler_init r start n d = Ok (mkScheduler r start n d [])) /\
  (forall r start n d s,
     VoyageScheduler_init r start n d = Ok s ->
     exists s',
       VoyageScheduler_init (mkRoute (route_name r) [] (ship_capacity r))
                            start n d = Ok s' /\
       List.length (voyages s') = Z.to_nat n /\
       forall v, In v (voyages s') ->
                 itinerary v = [] /\ total_voyage_time v = 0) /\
  (forall cap cap' river sea sim,
     TankSimulation_init cap river sea = Ok sim ->
     exists sim', TankSimulation_init cap' river sea = Ok sim' /\
                  tank_capacity sim' = cap' /\ events sim' = events sim) /\
  (forall r start n d e,
     VoyageScheduler_init r start n d = Raise e -> e = OverflowError) /\
  (forall cap river sea e,
     TankSimulation_init cap river sea = Raise e -> e = IndexError).
Proof.
  split; [|split; [|split; [|split]]].
  - intros r start n d Hn. unfold VoyageScheduler_init, _generate_voyages.
    rewrite range1_nonpos by assumption. reflexivity.
  - apply scheduler_without_legs.
  - apply simulation_any_capacity.
  - apply scheduler_Raise.
  - apply simulation_Raise.
Qed.

Lemma construction_without_validation_witness :
  VoyageScheduler_init route_river river_start (-2) 1
  = Ok (mkScheduler route_river river_start (-2) 1 []) /\
  (exists s',
     VoyageScheduler_init (mkRoute "River_route" [] 30) river_start 3 1 = Ok s' /\
     List.length (voyages s') = 3%nat /\
     forall v, In v (voyages s') ->
               itinerary v = [] /\ total_voyage_time v = 0) /\
  (exists sim', TankSimulation_init (-10) river_scheduler_default
                                    sea_scheduler_default = Ok sim' /\
                tank_capacity sim' = (-10)%Q /\
                events sim' = events tank_sim_default).
Proof.
  destruct construction_without_validation as (A & B & C & _ & _).
  split; [|split].
  - apply A. lia.
  - apply (B route_river river_start 3 1%Q river_scheduler_default).
    vm_compute; reflexivity.
  - apply (C 100%Q (-10)%Q river_scheduler_default sea_scheduler_default
             tank_sim_default).
    vm_compute; reflexivity.
Defined.

(** Invalid configurations are not rejected: a scheduler is built for 0
    and for -2 vessels and for a route without legs, and a simulation is
    built with capacity 0 and with capacity -10. *)
Lemma invalid_configuration_accepted :
  ~ rejected (VoyageScheduler_init route_river river_start 0 1) /\
  ~ rejected (VoyageScheduler_init route_river river_start (-2) 1) /\
  legs route_no_legs = [] /\
  ~ rejected (VoyageScheduler_init route_no_legs river_start 3 1) /\
  ~ rejected (TankSimulation_init 0 river_scheduler_default
                                  sea_scheduler_default) /\
  ~ rejected (TankSimulation_init (-10) river_scheduler_default
                                  sea_scheduler_default).
Proof.
  repeat split; try (intros [e E]; vm_compute in E; discriminate).
Qed.

(* ================================================================== *)
(** * Further properties of the scheduler *)

(** ** Ports of a route *)

Lemma get_ports_nth r ports :
  get_ports r = Ok ports ->
  List.length ports = S (List.length (legs r)) /\
  (forall l0, nth_error (legs r) 0 = Some l0 ->
              nth_error ports 0 = Some (leg_port_from l0)) /\
  (forall i l, nth_error (legs r) i = Some l ->
               nth_error ports (S i) = Some (leg_port_to l)).
Proof.
  unfold get_ports. intros H. inv_bind H. subst ports.
  apply first_item_Ok in Ha as [rest E].
  split; [simpl; now rewrite length_map|]. split.
  - intros l0 H0. rewrite E in H0. simpl in *. congruence.
  - intros i l Hi. simpl. rewrite nth_error_map, Hi. reflexivity.
Qed.

(** The ports of a route: [get_ports] raises [IndexError] exactly on a
    route without legs; otherwise it lists one port more than there are
    legs, leg [i] ending in port [i + 1]; and when every leg starts where
    the previous one ends, leg [i] also starts in port [i]. *)
Theorem get_ports_spec (r : Route) :
  (get_ports r = Raise IndexError <-> legs r = []) /\
  (forall e, get_ports r = Raise e -> e = IndexError) /\
  (forall ports, get_ports r = Ok ports ->
     List.length ports = S (List.length (legs r)) /\
     (forall i l, nth_error (legs r) i = Some l ->
                  nth_error ports (S i) = Some (leg_port_to l)) /\
     ((forall i a b, nth_error (legs r) i = Some a ->
                     nth_error (legs r) (S i) = Some b ->
                     leg_port_from b = leg_port_to a) ->
      forall i l, nth_error (legs r) i = Some l ->
                  nth_error ports i = Some (leg_port_from l))).
Proof.
  split; [|split].
  - unfold get_ports. destruct (legs r); simpl; split; congruence.
  - apply get_ports_Raise.
  - intros ports H. destruct (get_ports_nth _ _ H) as (Len & P0 & Pn).
    split; [exact Len|]. split; [exact Pn|].
    intros Conn i. induction i as [|i IH]; intros l Hl; [auto|].
    destruct (nth_error (legs r) i) as [a|] eqn:Ea.
    + rewrite (Conn i a l Ea Hl). auto.
    + apply nth_error_None in Ea.
      assert (nth_error (legs r) (S i) <> None) by congruence.
      apply nth_error_Some in H0. lia.
Qed.

Lemma get_ports_spec_witness :
  exists ports,
    get_ports route_two_legs = Ok ports /\
    List.length ports = 3%nat /\
    forall i l, nth_error (legs route_two_legs) i = Some l ->
                nth_error ports i = Some (leg_port_from l).
Proof.
  exists ["PortA"; "PortB"; "PortC"]%string.
  split; [reflexivity|].
  destruct (proj2 (proj2 (get_ports_spec route_two_legs))
                  ["PortA"; "PortB"; "PortC"]%string eq_refl)
    as (Len & _ & Conn).
  split; [exact Len|]. apply Conn.
  intros [|[|i]] a b Ha Hb; simpl in Ha, Hb; try discriminate.
  injection Ha as <-. injection Hb as <-. reflexivity.
Defined.

(** ** Order of the timestamps *)

Lemma round_half_even_nonneg (q : Q) :
  0 <= Qnum q -> 0 <= Datetime.round_half_even q.
Proof.
  intros H. unfold Datetime.round_half_even.
  assert (F : 0 <= Qnum q / Z.pos (Qden q)) by (apply Z.div_pos; lia).
  destruct (2 * (Qnum q mod Z.pos (Qden q)) ?= Z.pos (Qden q));
    [destruct (Z.even _)|..]; lia.
Qed.

Lemma timedelta_days_nonneg (q : Q) td :
  (0 <= q)%Q -> Datetime.timedelta_days q = Ok td -> 0 <= td.
Proof.
  unfold Datetime.timedelta_days. intros Hq.
  destruct (Datetime.valid_timedelta _); [|discriminate].
  intros H; injection H as <-. apply round_half_even_nonneg.
  unfold Qle in Hq. simpl in *. unfold Datetime.US_PER_DAY. lia.
Qed.

Lemma walk_legs_ordered ls : forall i t w,
  walk_legs i t ls = Ok w ->
  Forall (fun l => 0 <= duration_days l /\ 0 <= operation_days l)%Q ls ->
  t <= snd w /\
  Forall (fun st => t <= departure st /\ departure st <= arrival st /\
                    arrival st <= operation_end st /\
                    operation_end st <= snd w) (fst w).
Proof.
  induction ls as [|l ls IH]; intros i t w H N; simpl in H.
  - injection H as <-; simpl. split; [lia | constructor].
  - inv_bind H. subst w; simpl.
    inversion N as [|? ? [N1 N2] N']; subst.
    apply add_Ok in Ha0 as [-> _], Ha2 as [-> _].
    pose proof (timedelta_days_nonneg _ _ N1 Ha) as P1.
    pose proof (timedelta_days_nonneg _ _ N2 Ha1) as P2.
    destruct (IH _ _ _ Ha3 N') as [L F].
    split; [lia|]. constructor; simpl; [lia|].
    eapply Forall_impl; [|exact F]. simpl. intros st. lia.
Qed.

(** With durations that are not negative no vessel arrives before it
    leaves: every stop of a voyage lies between the voyage's departure
    and its final arrival, with departure, arrival and end of operation
    in this order, and the total voyage time is not negative. *)
Theorem voyage_times_ordered r sid dep v :
  _calculate_voyage r sid dep = Ok v ->
  Forall (fun l => 0 <= duration_days l /\ 0 <= operation_days l)%Q (legs r) ->
  dep <= arrival_final v /\
  0 <= total_voyage_time v /\
  Forall (fun st => dep <= departure st /\ departure st <= arrival st /\
                    arrival st <= operation_end st /\
                    operation_end st <= arrival_final v) (itinerary v).
Proof.
  intros H N. apply calculate_voyage_inv in H as (w & W & ->); simpl.
  destruct (walk_legs_ordered _ _ _ _ W N) as [L F].
  split; [exact L|]. split; [|exact F].
  unfold Datetime.days, Datetime.sub. apply Z.div_pos; [lia | reflexivity].
Qed.

Lemma voyage_times_ordered_witness :
  river_start <= arrival_final voyage_two_legs /\
  0 <= total_voyage_time voyage_two_legs /\
  Forall (fun st => river_start <= departure st /\
                    departure st <= arrival st /\
                    arrival st <= operation_end st /\
                    operation_end st <= arrival_final voyage_two_legs)
         (itinerary voyage_two_legs).
Proof.
  apply (voyage_times_ordered route_two_legs 1 river_start voyage_two_legs).
  - vm_compute; reflexivity.
  - repeat constructor; apply Qle_bool_iff; reflexivity.
Defined.

(** ** Identity of the voyages *)

Lemma str_int_parse (z : Z) :
  NilZero.int_of_string (str_int z) = Some (Z.to_int z).
Proof.
  unfold str_int. apply NilZero.isi; destruct z; simpl; intros E;
    try discriminate; injection E as E;
    now apply DecimalPos.Unsigned.to_uint_nonnil in E.
Qed.

Lemma str_int_inj (a b : Z) : str_int a = str_int b -> a = b.
Proof.
  intros H. apply DecimalZ.to_int_inj.
  pose proof (str_int_parse a) as Pa. rewrite H, str_int_parse in Pa.
  congruence.
Qed.

Lemma NoDup_map_injective {A B : Type} (f : A -> B) (l : list A) :
  (forall x y, f x = f y -> x = y) -> NoDup l -> NoDup (map f l).
Proof.
  intros Inj. induction 1 as [|x l Hx _ IH]; simpl; constructor; [|exact IH].
  intros Hin. apply in_map_iff in Hin as (y & E & Hy).
  apply Inj in E. subst y. contradiction.
Qed.

Lemma range1_NoDup (n : Z) : NoDup (range1 n).
Proof.
  unfold range1. apply NoDup_map_injective; [|apply seq_NoDup].
  intros x y. apply Nat2Z.inj.
Qed.

Lemma generate_voyage_identity r start d sid v :
  generate_voyage r start d sid = Ok v ->
  ship_id v = sid /\ ship_name v = ("Ship_" ++ str_int sid)%string /\
  route v = route_name r /\ capacity v = ship_capacity r.
Proof.
  intros G. apply generate_voyage_inv in G as (td & _ & _ & C).
  apply calculate_voyage_inv in C as (w & _ & ->). simpl. auto.
Qed.

(** The voyages of a scheduler are numbered 1, 2, ... in the order they
    are generated, there are as many as vessels were asked for (none for a
    count of zero or less), each is named after its number and carries the
    route's name and capacity, and no two have the same name. *)
Theorem scheduler_fleet_identity r start n d s :
  VoyageScheduler_init r start n d = Ok s ->
  map ship_id (voyages s) = range1 n /\
  List.length (voyages s) = Z.to_nat n /\
  NoDup (map ship_name (voyages s)) /\
  forall v, In v (voyages s) ->
    1 <= ship_id v <= n /\
    ship_name v = ("Ship_" ++ str_int (ship_id v))%string /\
    route v = route_name r /\ capacity v = ship_capacity r.
Proof.
  intros H. apply scheduler_voyages in H as (_ & _ & _ & _ & F).
  assert (Ids : map ship_id (voyages s) = range1 n).
  { induction F as [|sid v l l' G _ IH]; [reflexivity|]. simpl.
    apply generate_voyage_identity in G as (-> & _). now rewrite IH. }
  assert (Names : map ship_name (voyages s)
                  = map (fun k => ("Ship_" ++ str_int k)%string) (range1 n)).
  { clear Ids. induction F as [|sid v l l' G _ IH]; [reflexivity|].
    cbn [map]. apply generate_voyage_identity in G as (_ & -> & _).
    now rewrite IH. }
  split; [exact Ids|]. split.
  - rewrite <- (length_map ship_id), Ids. apply range1_length.
  - split.
    + rewrite Names. apply NoDup_map_injective; [|apply range1_NoDup].
      intros x y E. apply str_int_inj. simpl in E. congruence.
    + intros v Hv. destruct (Forall2_In_r _ _ _ F _ Hv) as (sid & Hsid & G).
      apply range1_In in Hsid.
      apply generate_voyage_identity in G as (-> & N & Rt & C). auto.
Qed.

Lemma scheduler_fleet_identity_witness :
  map ship_id (voyages river_scheduler_default) = range1 3 /\
  List.length (voyages river_scheduler_default) = 3%nat /\
  NoDup (map ship_name (voyages river_scheduler_default)) /\
  forall v, In v (voyages river_scheduler_default) ->
    1 <= ship_id v <= 3 /\
    ship_name v = ("Ship_" ++ str_int (ship_id v))%string /\
    route v = route_name route_river /\ capacity v = ship_capacity route_river.
Proof.
  apply (scheduler_fleet_identity route_river river_start 3 1
                                  river_scheduler_default).
  vm_compute; reflexivity.
Defined.

(** ** Voyages as shifted copies *)

Lemma walk_legs_shift ls : forall i t t' w w',
  walk_legs i t ls = Ok w -> walk_legs i t' ls = Ok w' ->
  snd w' = snd w + (t' - t) /\
  Forall2 (fun st st' =>
             departure st' = departure st + (t' - t) /\
             arrival st' = arrival st + (t' - t) /\
             operation_end st' = operation_end st + (t' - t))
          (fst w) (fst w').
Proof.
  induction ls as [|l ls IH]; intros i t t' w w' H H'; simpl in H, H'.
  - injection H as <-. injection H' as <-. simpl. split; [lia | constructor].
  - inv_bind H. inv_bind H'. subst w w'; simpl.
    rewrite Ha in Ha4. injection Ha4 as <-.
    rewrite Ha1 in Ha6. injection Ha6 as <-.
    apply add_Ok in Ha0 as [-> _], Ha2 as [-> _], Ha5 as [-> _], Ha7 as [-> _].
    destruct (IH _ _ _ _ _ Ha3 Ha8) as [E F].
    split; [lia|]. constructor; [simpl; lia|].
    eapply Forall2_impl; [|exact F]. simpl. intros st st'. lia.
Qed.

(** The voyages of one scheduler are copies of each other shifted in
    time: any two of them have the same total voyage time and stops that
    differ by one and the same shift. *)
Theorem voyages_shifted_copies r start n d s v v' :
  VoyageScheduler_init r start n d = Ok s ->
  In v (voyages s) -> In v' (voyages s) ->
  total_voyage_time v' = total_voyage_time v /\
  exists shift,
    arrival_final v' = arrival_final v + shift /\
    Forall2 (fun st st' =>
               departure st' = departure st + shift /\
               arrival st' = arrival st + shift /\
               operation_end st' = operation_end st + shift)
            (itinerary v) (itinerary v').
Proof.
  intros H Hv Hv'.
  destruct (scheduler_voyage_inv _ _ _ _ _ _ H Hv) as (k & td & _ & _ & C).
  destruct (scheduler_voyage_inv _ _ _ _ _ _ H Hv') as (k' & td' & _ & _ & C').
  apply calculate_voyage_inv in C as (w & W & ->).
  apply calculate_voyage_inv in C' as (w' & W' & ->). simpl.
  destruct (walk_legs_shift _ _ _ _ _ _ W W') as [E F].
  split.
  - unfold Datetime.sub. f_equal. lia.
  - exists (start + td' - (start + td)). auto.
Qed.

Lemma voyages_shifted_copies_witness :
  let v := nth 0 (voyages scheduler_two_legs) no_voyage in
  let v' := nth 2 (voyages scheduler_two_legs) no_voyage in
  total_voyage_time v' = total_voyage_time v /\
  exists shift,
    arrival_final v' = arrival_final v + shift /\
    Forall2 (fun st st' =>
               departure st' = departure st + shift /\
               arrival st' = arrival st + shift /\
               operation_end st' = operation_end st + shift)
            (itinerary v) (itinerary v').
Proof.
  apply (voyages_shifted_copies route_two_legs river_start 3 (3 # 2)
                                scheduler_two_legs).
  - vm_compute; reflexivity.
  - simpl; auto.
  - simpl; auto.
Defined.

(** ** Rounding of the durations *)

Lemma round_half_even_close (q : Q) :
  (q - (1 # 2) <= inject_Z (Datetime.round_half_even q)
   /\ inject_Z (Datetime.round_half_even q) <= q + (1 # 2))%Q.
Proof.
  destruct q as [n d]. unfold Datetime.round_half_even. cbn [Qnum Qden].
  pose proof (Z.div_mod n (Z.pos d) ltac:(discriminate)) as E.
  pose proof (Z.mod_pos_bound n (Z.pos d) ltac:(reflexivity)) as B.
  set (f := n / Z.pos d) in *. set (r := n mod Z.pos d) in *.
  assert (M : forall z : Z,
             2 * (Z.pos d * z) - Z.pos d <= 2 * n <= 2 * (Z.pos d * z) + Z.pos d ->
             ((n # d) - (1 # 2) <= inject_Z z
              /\ inject_Z z <= (n # d) + (1 # 2))%Q).
  { intros z Hz. unfold Qle, Qminus, Qplus, Qopp, inject_Z. cbn [Qnum Qden].
    rewrite !Pos2Z.inj_mul. lia. }
  apply M.
  destruct (Z.compare_spec (2 * r) (Z.pos d)) as [C|C|C];
    [destruct (Z.even f)|..]; lia.
Qed.

Lemma timedelta_days_close (q : Q) td :
  Datetime.timedelta_days q = Ok td ->
  (q * inject_Z Datetime.US_PER_DAY - (1 # 2) <= inject_Z td
   /\ inject_Z td <= q * inject_Z Datetime.US_PER_DAY + (1 # 2))%Q.
Proof.
  unfold Datetime.timedelta_days.
  destruct (Datetime.valid_timedelta _); [|discriminate].
  intros H; injection H as <-. apply round_half_even_close.
Qed.

(* ================================================================== *)
(** * Further properties of the simulation *)

(** ** When the simulation is built *)

Lemma empty_itinerary_dec (l : list Voyage) :
  (forall v, In v l -> itinerary v <> []) \/
  (exists v, In v l /\ itinerary v = []).
Proof.
  induction l as [|v l [IH|(v' & Hv' & E)]].
  - left. intros v [].
  - destruct (itinerary v) eqn:E.
    + right. exists v. split; [left; reflexivity | exact E].
    + left. intros v' [<-|Hv']; [congruence | auto].
  - right. exists v'. split; [right; exact Hv' | exact E].
Qed.

Lemma simulation_Ok_inv cap river sea sim :
  TankSimulation_init cap river sea = Ok sim ->
  legs (sched_route river) <> [] /\
  forall v, In v (voyages river ++ voyages sea) -> itinerary v <> [].
Proof.
  intros H. apply simulation_inv in H as (evs & B & _).
  apply build_events_spec in B
    as (ports & l & ins & outs & _ & _ & Ll & _ & Fi & Fo).
  split.
  - intros E. rewrite E in Ll. discriminate.
  - intros v Hv E. apply in_app_or in Hv as [Hv|Hv].
    + apply In_nth_error in Hv as [i Hi].
      destruct (Forall2_nth_error _ _ _ Fi _ _ Hi) as (e & _ & st & Hst & _).
      rewrite E in Hst. discriminate.
    + apply In_nth_error in Hv as [i Hi].
      destruct (Forall2_nth_error _ _ _ Fo _ _ Hi) as (e & _ & st & Hst & _).
      rewrite E in Hst. discriminate.
Qed.

(** The simulation is built exactly when the river route has a leg and
    every voyage of both schedulers has a stop; in every other case, also
    when neither scheduler has a voyage, its construction raises
    [IndexError].  The capacity plays no part. *)
Theorem simulation_built_iff cap river sea :
  ((exists sim, TankSimulation_init cap river sea = Ok sim) <->
   legs (sched_route river) <> [] /\
   forall v, In v (voyages river ++ voyages sea) -> itinerary v <> []) /\
  (TankSimulation_init cap river sea = Raise IndexError <->
   legs (sched_route river) = [] \/
   exists v, In v (voyages river ++ voyages sea) /\ itinerary v = []).
Proof.
  split; split.
  - intros [sim H]. eapply simulation_Ok_inv; eauto.
  - intros [L V]. now apply simulation_total.
  - intros R.
    destruct (legs (sched_route river)) eqn:E; [left; reflexivity|].
    destruct (empty_itinerary_dec (voyages river ++ voyages sea)) as [V|V];
      [|right; exact V].
    destruct (simulation_total cap river sea) as [sim H];
      [rewrite E; discriminate | exact V | congruence].
  - intros D.
    destruct (TankSimulation_init cap river sea) as [sim|e] eqn:H.
    + exfalso. destruct (simulation_Ok_inv _ _ _ _ H) as [L V].
      destruct D as [D|(v & Hv & E)]; [contradiction | exact (V v Hv E)].
    + apply simulation_Raise in H. now subst e.
Qed.

(** ** Totals of the fleets *)

Lemma Qsum_app (l1 l2 : list Q) : (Qsum (l1 ++ l2) == Qsum l1 + Qsum l2)%Q.
Proof.
  induction l1 as [|x l1 IH]; cbn [app Qsum fold_right].
  - fold (Qsum l2). lra.
  - fold (Qsum (l1 ++ l2)). fold (Qsum l1). rewrite IH. lra.
Qed.

Lemma Qsum_map_perm {A : Type} (f : A -> Q) (l l' : list A) :
  Permutation l l' -> (Qsum (map f l) == Qsum (map f l'))%Q.
Proof.
  induction 1 as [|x l l' _ IH|x y l|l l' l'' _ IH1 _ IH2];
    cbn [map Qsum fold_right].
  - reflexivity.
  - fold (Qsum (map f l)). fold (Qsum (map f l')). rewrite IH. reflexivity.
  - fold (Qsum (map f l)). lra.
  - now rewrite IH1.
Qed.

Lemma Qsum_map_ext {A B : Type} (f : A -> Q) (g : B -> Q) l l' :
  Forall2 (fun x y => f x = g y) l l' ->
  (Qsum (map f l) == Qsum (map g l'))%Q.
Proof.
  induction 1 as [|x y l l' E _ IH]; cbn [map Qsum fold_right].
  - reflexivity.
  - fold (Qsum (map f l)). fold (Qsum (map g l')). rewrite IH, E. reflexivity.
Qed.

Lemma Qsum_map_zero {A : Type} (f : A -> Q) l :
  Forall (fun x => f x = 0%Q) l -> (Qsum (map f l) == 0)%Q.
Proof.
  induction 1 as [|x l E _ IH]; cbn [map Qsum fold_right].
  - reflexivity.
  - fold (Qsum (map f l)). rewrite IH, E. lra.
Qed.

(** Sorting loses and adds nothing: over the events of a simulation the
    total inflow is the sum of the capacities of the river voyages and
    the total outflow the sum of the capacities of the sea voyages. *)
Theorem simulation_totals cap river sea sim :
  TankSimulation_init cap river sea = Ok sim ->
  (total_inflow (events sim) == Qsum (map capacity (voyages river)))%Q /\
  (total_outflow (events sim) == Qsum (map capacity (voyages sea)))%Q /\
  List.length (events sim)
  = (List.length (voyages river) + List.length (voyages sea))%nat /\
  List.length (tank_log sim) = List.length (events sim).
Proof.
  intros H. pose proof (simulation_log_length _ _ _ _ H) as Len.
  apply simulation_inv in H as (evs & B & ->). cbn [events tank_log] in *.
  rewrite trace_length in Len.
  apply build_events_spec in B
    as (ports & l & ins & outs & _ & _ & _ & -> & Fi & Fo).
  unfold total_inflow, total_outflow.
  rewrite <- !(Qsum_map_perm _ _ _ (sort_events_perm (ins ++ outs))).
  rewrite !map_app, !Qsum_app.
  split; [|split; [|split; [exact Len | apply trace_length]]].
  - rewrite (Qsum_map_zero inflow_volume outs).
    + rewrite (Qsum_map_ext capacity inflow_volume (voyages river) ins); [lra|].
      eapply Forall2_impl; [|exact Fi].
      intros v e (st & _ & _ & T & _ & _ & V).
      unfold inflow_volume. now rewrite T, V.
    + eapply Forall2_Forall_r; [exact Fo|].
      intros v e _ (st & _ & _ & T & _). unfold inflow_volume. now rewrite T.
  - rewrite (Qsum_map_zero outflow_volume ins).
    + rewrite (Qsum_map_ext capacity outflow_volume (voyages sea) outs); [lra|].
      eapply Forall2_impl; [|exact Fo].
      intros v e (st & _ & _ & T & _ & _ & V).
      unfold outflow_volume. now rewrite T, V.
    + eapply Forall2_Forall_r; [exact Fi|].
      intros v e _ (st & _ & _ & T & _). unfold outflow_volume. now rewrite T.
Qed.

Lemma simulation_totals_witness :
  (total_inflow (events tank_sim_tie)
   == Qsum (map capacity (voyages river_scheduler_default)))%Q /\
  (total_outflow (events tank_sim_tie)
   == Qsum (map capacity (voyages sea_scheduler_tie)))%Q /\
  List.length (events tank_sim_tie)
  = (List.length (voyages river_scheduler_default)
     + List.length (voyages sea_scheduler_tie))%nat /\
  List.length (tank_log tank_sim_tie) = List.length (events tank_sim_tie).
Proof.
  apply (simulation_totals 100 river_scheduler_default sea_scheduler_tie
                           tank_sim_tie).
  vm_compute; reflexivity.
Defined.

(** ** The log read on its own *)

Lemma next_level_min_max cap lvl e :
  match ev_type e with
  | river_arrival => (next_level cap lvl e == Qmin (lvl + ev_volume e) cap)%Q
  | sea_departure => (next_level cap lvl e == Qmax (lvl - ev_volume e) 0)%Q
  end.
Proof.
  destruct (ev_type e) eqn:T.
  - rewrite next_level_river by assumption.
    destruct (Qgtb (lvl + ev_volume e) cap) eqn:G.
    + apply Qgtb_spec in G.
      destruct (Q.min_spec (lvl + ev_volume e) cap) as [[C ->]|[C ->]]; lra.
    + apply Qgtb_false in G.
      destruct (Q.min_spec (lvl + ev_volume e) cap) as [[C ->]|[C ->]]; lra.
  - rewrite next_level_sea by assumption.
    destruct (Qltb (lvl - ev_volume e) 0) eqn:G.
    + apply Qltb_spec in G.
      destruct (Q.max_spec (lvl - ev_volume e) 0) as [[C ->]|[C ->]]; lra.
    + apply Qltb_false in G.
      destruct (Q.max_spec (lvl - ev_volume e) 0) as [[C ->]|[C ->]]; lra.
Qed.

Lemma trace_recurrence cap evs : forall lvl n en,
  nth_error (trace cap lvl evs) n = Some en ->
  match log_action en with
  | Unload_river vol =>
      (tank_level en
       == Qmin (level_before lvl (trace cap lvl evs) n + vol) cap)%Q
  | Load_sea vol =>
      (tank_level en
       == Qmax (level_before lvl (trace cap lvl evs) n - vol) 0)%Q
  end.
Proof.
  induction evs as [|e evs IH]; intros lvl n en Hn; cbn [trace] in *.
  - destruct n; discriminate.
  - destruct n as [|n]; cbn [nth_error] in Hn.
    + injection Hn as <-. cbn [level_before log_action entry_for tank_level].
      pose proof (next_level_min_max cap lvl e) as M.
      destruct (ev_type e); exact M.
    + specialize (IH _ _ _ Hn).
      replace (level_before lvl
                 (entry_for e (next_level cap lvl e)
                  :: trace cap (next_level cap lvl e) evs) (S n))
        with (level_before (next_level cap lvl e)
                (trace cap (next_level cap lvl e) evs) n); [exact IH|].
      destruct n as [|n]; [reflexivity|].
      cbn [level_before nth_error].
      destruct (nth_error (trace cap (next_level cap lvl e) evs) n) eqn:E;
        [reflexivity|].
      apply nth_error_None in E.
      assert (Hn' : nth_error (trace cap (next_level cap lvl e) evs) (S n)
                    <> None) by congruence.
      apply nth_error_Some in Hn'. lia.
Qed.

Lemma final_level_last cap evs : forall lvl,
  final_level cap lvl evs
  = level_before lvl (trace cap lvl evs) (List.length evs).
Proof.
  induction evs as [|e evs IH]; intros lvl; [reflexivity|].
  cbn [final_level trace List.length]. rewrite IH.
  destruct evs as [|e' evs]; [reflexivity|].
  cbn [List.length level_before nth_error trace].
  destruct (nth_error _ _) eqn:E; [reflexivity|].
  apply nth_error_None in E. cbn [List.length] in E.
  rewrite trace_length in E. lia.
Qed.

(** The log can be checked on its own: the level of every entry is the
    level of the previous entry (0 before the first) plus the unloaded
    volume, capped at the capacity, or minus the loaded volume, floored at
    0; and the level the simulation ends with is the level of the last
    entry (0 when the log is empty). *)
Theorem log_levels_recurrence cap river sea sim :
  TankSimulation_init cap river sea = Ok sim ->
  (forall n en, nth_error (tank_log sim) n = Some en ->
     match log_action en with
     | Unload_river vol =>
         (tank_level en
          == Qmin (level_before 0 (tank_log sim) n + vol) (tank_capacity sim))%Q
     | Load_sea vol =>
         (tank_level en
          == Qmax (level_before 0 (tank_log sim) n - vol) 0)%Q
     end) /\
  tank_capacity sim = cap /\
  level sim = level_before 0 (tank_log sim) (List.length (tank_log sim)).
Proof.
  intros H. apply simulation_inv in H as (evs & _ & ->).
  cbn [tank_log tank_capacity level]. split; [|split; [reflexivity|]].
  - intros n en Hn. now apply trace_recurrence.
  - rewrite trace_length. apply final_level_last.
Qed.

Lemma log_levels_recurrence_witness :
  (forall n en, nth_error (tank_log tank_sim_default) n = Some en ->
     match log_action en with
     | Unload_river vol =>
         (tank_level en
          == Qmin (level_before 0 (tank_log tank_sim_default) n + vol)
                  (tank_capacity tank_sim_default))%Q
     | Load_sea vol =>
         (tank_level en
          == Qmax (level_before 0 (tank_log tank_sim_default) n - vol) 0)%Q
     end) /\
  tank_capacity tank_sim_default = 100%Q /\
  level tank_sim_default
  = level_before 0 (tank_log tank_sim_default)
                 (List.length (tank_log tank_sim_default)).
Proof.
  apply (log_levels_recurrence 100 river_scheduler_default
                               sea_scheduler_default tank_sim_default).
  vm_compute; reflexivity.
Defined.

(** ** Maximum and minimum level *)

Lemma max_Q_fold_spec (l : list Q) : forall x m,
  fold_left (fun m y => if Qgtb y m then y else m) l x = m ->
  (m = x \/ In m l) /\ (x <= m)%Q /\ forall y, In y l -> (y <= m)%Q.
Proof.
  induction l as [|a l IH]; intros x m E; cbn [fold_left] in E.
  - subst m. split; [left; reflexivity|]. split; [lra|]. intros y [].
  - destruct (IH _ _ E) as (I & L & U).
    destruct (Qgtb a x) eqn:G.
    + apply Qgtb_spec in G.
      split; [destruct I; simpl; auto|]. split; [lra|].
      intros y [<-|Hy]; auto.
    + apply Qgtb_false in G.
      split; [destruct I; simpl; auto|]. split; [lra|].
      intros y [<-|Hy]; auto. lra.
Qed.

Lemma min_Q_fold_spec (l : list Q) : forall x m,
  fold_left (fun m y => if Qltb y m then y else m) l x = m ->
  (m = x \/ In m l) /\ (m <= x)%Q /\ forall y, In y l -> (m <= y)%Q.
Proof.
  induction l as [|a l IH]; intros x m E; cbn [fold_left] in E.
  - subst m. split; [left; reflexivity|]. split; [lra|]. intros y [].
  - destruct (IH _ _ E) as (I & L & U).
    destruct (Qltb a x) eqn:G.
    + apply Qltb_spec in G.
      split; [destruct I; simpl; auto|]. split; [lra|].
      intros y [<-|Hy]; auto.
    + apply Qltb_false in G.
      split; [destruct I; simpl; auto|]. split; [lra|].
      intros y [<-|Hy]; auto. lra.
Qed.

Lemma max_Q_spec (l : list Q) (m : Q) :
  max_Q l = Ok m -> In m l /\ forall y, In y l -> (y <= m)%Q.
Proof.
  destruct l as [|x l]; simpl; [discriminate|].
  intros H; injection H as H.
  destruct (max_Q_fold_spec l x m H) as (I & L & U). split.
  - destruct I as [->|I]; auto.
  - intros y [<-|Hy]; auto.
Qed.

Lemma min_Q_spec (l : list Q) (m : Q) :
  min_Q l = Ok m -> In m l /\ forall y, In y l -> (m <= y)%Q.
Proof.
  destruct l as [|x l]; simpl; [discriminate|].
  intros H; injection H as H.
  destruct (min_Q_fold_spec l x m H) as (I & L & U). split.
  - destruct I as [->|I]; auto.
  - intros y [<-|Hy]; auto.
Qed.

(** Over a log that is not empty the maximum and the minimum level are
    computed; each is the level of some entry, and the level of every
    entry lies between them. *)
Theorem level_extrema (sim : TankSimulation) :
  tank_log sim <> [] ->
  exists mx mn,
    max_level sim = Ok mx /\ min_level sim = Ok mn /\
    (exists en, In en (tank_log sim) /\ tank_level en = mx) /\
    (exists en, In en (tank_log sim) /\ tank_level en = mn) /\
    (forall en, In en (tank_log sim) ->
                (mn <= tank_level en /\ tank_level en <= mx)%Q).
Proof.
  intros NE. unfold max_level, min_level.
  destruct (max_Q_nonempty (map tank_level (tank_log sim))) as [mx Hmx].
  { destruct (tank_log sim); [congruence | discriminate]. }
  destruct (min_Q_nonempty (map tank_level (tank_log sim))) as [mn Hmn].
  { destruct (tank_log sim); [congruence | discriminate]. }
  exists mx, mn. split; [exact Hmx|]. split; [exact Hmn|].
  apply max_Q_spec in Hmx as [Ix Ux]. apply min_Q_spec in Hmn as [In_ Un].
  apply in_map_iff in Ix as (ex & Ex & Hex).
  apply in_map_iff in In_ as (en & En & Hen).
  split; [eauto|]. split; [eauto|].
  intros e He. split; [apply Un | apply Ux]; now apply in_map.
Qed.

Lemma level_extrema_witness :
  exists mx mn,
    max_level tank_sim_tie = Ok mx /\ min_level tank_sim_tie = Ok mn /\
    (exists en, In en (tank_log tank_sim_tie) /\ tank_level en = mx) /\
    (exists en, In en (tank_log tank_sim_tie) /\ tank_level en = mn) /\
    (forall en, In en (tank_log tank_sim_tie) ->
                (mn <= tank_level en /\ tank_level en <= mx)%Q).
Proof.
  apply (level_extrema tank_sim_tie). discriminate.
Defined.

(** ** Failures of the summary *)

Lemma cycle_item_no_river river v :
  voyages river = [] -> cycle_item river v = Raise IndexError.
Proof. unfold cycle_item. intros ->. reflexivity. Qed.

Lemma cycle_length_computed river sea v0 s0 :
  first_item (voyages river) = Ok v0 -> first_item (itinerary v0) = Ok s0 ->
  exists c, cycle_length river sea = Ok c.
Proof.
  intros H0 Hs0. unfold cycle_length.
  rewrite (for_each_map _ (fun v => Datetime.days (elapsed_since s0 v)))
    by (intros v _; unfold cycle_item; rewrite H0; simpl; rewrite Hs0;
        reflexivity).
  apply first_item_Ok in H0 as [rest E]. rewrite E.
  cbn [app map bind max_Z]. eexists; reflexivity.
Qed.

Lemma cycle_length_no_voyage river sea :
  voyages river = [] -> voyages sea = [] ->
  cycle_length river sea = Raise ValueError.
Proof. intros E1 E2. unfold cycle_length. rewrite E1, E2. reflexivity. Qed.

Lemma cycle_length_no_river river sea :
  voyages river = [] -> voyages sea <> [] ->
  cycle_length river sea = Raise IndexError.
Proof.
  intros E1 E2. unfold cycle_length. rewrite E1.
  destruct (voyages sea) as [|v vs] eqn:Es; [congruence|].
  cbn [app for_each]. rewrite cycle_item_no_river by assumption.
  reflexivity.
Qed.

Lemma cycle_length_no_stop river sea v0 :
  first_item (voyages river) = Ok v0 -> itinerary v0 = [] ->
  cycle_length river sea = Raise IndexError.
Proof.
  intros H0 E. unfold cycle_length.
  apply first_item_Ok in H0 as [rest Er]. rewrite Er.
  cbn [app for_each]. unfold cycle_item at 1. rewrite Er.
  cbn [first_item bind]. rewrite E. reflexivity.
Qed.

(** The cycle length fails in three cases, and only in them: with
    [ValueError] when neither scheduler has a voyage; with [IndexError]
    when the river scheduler has none and the sea scheduler has one, or
    when the first river voyage has no stop. *)
Theorem cycle_length_failures (river sea : VoyageScheduler) :
  (voyages river = [] -> voyages sea = [] ->
   cycle_length river sea = Raise ValueError) /\
  (voyages river = [] -> voyages sea <> [] ->
   cycle_length river sea = Raise IndexError) /\
  (forall v0, first_item (voyages river) = Ok v0 -> itinerary v0 = [] ->
   cycle_length river sea = Raise IndexError) /\
  (forall e, cycle_length river sea = Raise e ->
   (e = ValueError /\ voyages river = [] /\ voyages sea = []) \/
   (e = IndexError /\ voyages river = [] /\ voyages sea <> []) \/
   (e = IndexError /\ exists v0, first_item (voyages river) = Ok v0
                                 /\ itinerary v0 = [])).
Proof.
  split; [apply cycle_length_no_voyage|].
  split; [apply cycle_length_no_river|].
  split; [apply cycle_length_no_stop|].
  intros e H.
  destruct (voyages river) as [|v0 rest] eqn:Er.
  - destruct (voyages sea) as [|v vs] eqn:Es.
    + left. rewrite cycle_length_no_voyage in H by assumption.
      injection H as <-. auto.
    + right; left.
      rewrite cycle_length_no_river in H by (rewrite ?Es; congruence).
      injection H as <-. repeat split; auto. discriminate.
  - right; right. destruct (itinerary v0) as [|s0 ss] eqn:Ei.
    + rewrite (cycle_length_no_stop river sea v0) in H
        by (rewrite ?Er; reflexivity || assumption).
      injection H as <-. split; [reflexivity|]. exists v0. auto.
    + exfalso.
      destruct (cycle_length_computed river sea v0 s0) as (c & Hc).
      * rewrite Er. reflexivity.
      * rewrite Ei. reflexivity.
      * congruence.
Qed.

Lemma cycle_length_failures_witness :
  cycle_length river_scheduler_empty sea_scheduler_empty = Raise ValueError /\
  cycle_length river_scheduler_empty sea_scheduler_default = Raise IndexError.
Proof.
  destruct (cycle_length_failures river_scheduler_empty sea_scheduler_empty)
    as (A & _).
  destruct (cycle_length_failures river_scheduler_empty sea_scheduler_default)
    as (_ & B & _).
  split; [apply A; reflexivity | apply B; [reflexivity | discriminate]].
Defined.

(** The summary of the Excel export over a simulation that was built: it
    is computed as soon as the river scheduler has a voyage; with no river
    voyage it fails, with [IndexError] in the cycle length when the sea
    scheduler has a voyage and with [ValueError] in the maximum level when
    it has none. *)
Theorem summary_metrics_outcome cap river sea sim :
  TankSimulation_init cap river sea = Ok sim ->
  (voyages river <> [] ->
   exists mx mn c,
     summary_metrics river sea sim = Ok (mx, mn, c) /\
     max_level sim = Ok mx /\ min_level sim = Ok mn /\
     cycle_length river sea = Ok c) /\
  (voyages river = [] -> voyages sea <> [] ->
   summary_metrics river sea sim = Raise IndexError /\
   exists mx mn, pdf_metrics sim = Ok (mx, mn)) /\
  (voyages river = [] -> voyages sea = [] ->
   summary_metrics river sea sim = Raise ValueError).
Proof.
  intros H. pose proof (simulation_log_length _ _ _ _ H) as Len.
  destruct (simulation_Ok_inv _ _ _ _ H) as [_ V].
  assert (M : tank_log sim <> [] ->
              exists mx mn, max_level sim = Ok mx /\ min_level sim = Ok mn).
  { intros NE. unfold max_level, min_level.
    destruct (max_Q_nonempty (map tank_level (tank_log sim))) as [mx Hmx].
    { destruct (tank_log sim); [congruence | discriminate]. }
    destruct (min_Q_nonempty (map tank_level (tank_log sim))) as [mn Hmn].
    { destruct (tank_log sim); [congruence | discriminate]. }
    eauto. }
  split; [|split].
  - intros NE. destruct (voyages river) as [|v0 rest] eqn:Er; [congruence|].
    destruct M as (mx & mn & Hmx & Hmn).
    { intros E. rewrite E in Len. discriminate. }
    destruct (itinerary v0) as [|s0 ss] eqn:Ei.
    { exfalso. apply (V v0); [left; reflexivity | exact Ei]. }
    destruct (cycle_length_computed river sea v0 s0) as (c & Hc).
    { rewrite Er. reflexivity. }
    { rewrite Ei. reflexivity. }
    exists mx, mn, c. unfold summary_metrics.
    rewrite Hmx, Hmn, Hc. auto.
  - intros Er Es. destruct M as (mx & mn & Hmx & Hmn).
    { intros E. rewrite E, Er in Len.
      destruct (voyages sea); [congruence | discriminate]. }
    split.
    + unfold summary_metrics. rewrite Hmx, Hmn. cbn [bind].
      rewrite cycle_length_no_river by assumption. reflexivity.
    + exists mx, mn. unfold pdf_metrics. rewrite Hmx, Hmn. reflexivity.
  - intros Er Es. rewrite Er, Es in Len.
    unfold summary_metrics, max_level.
    destruct (tank_log sim); [reflexivity | discriminate].
Qed.

Lemma summary_metrics_outcome_witness :
  (exists mx mn c,
     summary_metrics river_scheduler_default sea_scheduler_tie tank_sim_tie
     = Ok (mx, mn, c) /\
     max_level tank_sim_tie = Ok mx /\ min_level tank_sim_tie = Ok mn /\
     cycle_length river_scheduler_default sea_scheduler_tie = Ok c).
Proof.
  apply (summary_metrics_outcome 100 river_scheduler_default sea_scheduler_tie
                                 tank_sim_tie).
  - vm_compute; reflexivity.
  - discriminate.
Defined.

(* ================================================================== *)
(** * Tables and charts *)

(** ** The schedule table *)

Lemma flat_map_length_const {A B : Type} (f : A -> list B) (L : nat) l :
  (forall x, In x l -> List.length (f x) = L) ->
  List.length (flat_map f l) = (List.length l * L)%nat.
Proof.
  induction l as [|a l IH]; intros H; [reflexivity|].
  cbn [flat_map List.length]. rewrite length_app, H by (left; reflexivity).
  rewrite IH by (intros; apply H; right; assumption). lia.
Qed.

Lemma flat_map_nth_const {A B : Type} (f : A -> list B) (L : nat) l :
  (forall x, In x l -> List.length (f x) = L) ->
  forall k i x y,
    nth_error l k = Some x -> nth_error (f x) i = Some y ->
    nth_error (flat_map f l) (k * L + i) = Some y.
Proof.
  induction l as [|a l IH]; intros H k i x y Hk Hi.
  - destruct k; discriminate.
  - cbn [flat_map]. destruct k as [|k]; cbn [nth_error] in Hk.
    + injection Hk as ->. rewrite nth_error_app1; [exact Hi|].
      apply nth_error_Some. simpl. congruence.
    + rewrite nth_error_app2 by (rewrite H by (left; reflexivity); lia).
      rewrite H by (left; reflexivity).
      replace (S k * L + i - L)%nat with (k * L + i)%nat by lia.
      apply (IH (fun x' Hx' => H x' (or_intror Hx')) k i x y Hk Hi).
Qed.

Lemma scheduler_stop r start n d s k i l :
  VoyageScheduler_init r start n d = Ok s ->
  1 <= k <= n -> nth_error (legs r) i = Some l ->
  exists v st,
    nth_error (voyages s) (Z.to_nat (k - 1)) = Some v /\
    nth_error (itinerary v) i = Some st /\
    ship_name v = ("Ship_" ++ str_int k)%string /\ ship_id v = k /\
    stop_of_leg (Z.of_nat i + 1) l st.
Proof.
  intros H Hk Hl. apply scheduler_voyages in H as (_ & _ & _ & _ & F).
  destruct (Forall2_nth_error _ _ _ F _ _ (range1_nth n k Hk)) as (v & Hv & G).
  destruct (generate_voyage_identity _ _ _ _ _ G) as (Id & Nm & _).
  apply generate_voyage_inv in G as (td & _ & _ & C).
  apply calculate_voyage_inv in C as (w & W & E).
  destruct (walk_legs_stops _ _ _ _ W _ _ Hl) as (st & Hst & S1).
  exists v, st. split; [exact Hv|]. rewrite E at 1. cbn [itinerary].
  split; [exact Hst|]. split; [exact Nm|]. split; [exact Id|].
  replace (Z.of_nat i + 1) with (0 + 1 + Z.of_nat i) by lia. exact S1.
Qed.

(** The schedule table of a scheduler has one row for every stop of every
    voyage, voyage after voyage and leg after leg: for [n] vessels on a
    route of [L] legs it has [n * L] rows, and the row at position
    [(k - 1) * L + i] is the one of vessel [k] on leg [i], with the name
    ["Ship_k"], the leg's name, ports and durations, and the calendar
    dates of the stop's departure, arrival and end of operation. *)
Theorem schedule_table_rows r start n d s :
  VoyageScheduler_init r start n d = Ok s ->
  List.length (get_schedule_df s)
  = (Z.to_nat n * List.length (legs r))%nat /\
  forall k i l,
    1 <= k <= n -> nth_error (legs r) i = Some l ->
    exists v st row,
      nth_error (voyages s) (Z.to_nat (k - 1)) = Some v /\
      nth_error (itinerary v) i = Some st /\
      nth_error (get_schedule_df s)
                (Z.to_nat (k - 1) * List.length (legs r) + i) = Some row /\
      row_ship row = ("Ship_" ++ str_int k)%string /\
      row_leg row = leg_name l /\
      row_from row = leg_port_from l /\ row_to row = leg_port_to l /\
      row_voyage_days row = duration_days l /\
      row_operation_days row = operation_days l /\
      row_departure row = Calendar.date_of (departure st) /\
      row_arrival row = Calendar.date_of (arrival st) /\
      row_operation_end row = Calendar.date_of (operation_end st).
Proof.
  intros H.
  assert (Len : forall v, In v (voyages s) ->
                  List.length (map (schedule_row v) (itinerary v))
                  = List.length (legs r)).
  { intros v Hv. rewrite length_map.
    apply (scheduler_itinerary_length _ _ _ _ _ _ H Hv). }
  split.
  - unfold get_schedule_df. rewrite (flat_map_length_const _ _ _ Len).
    apply scheduler_voyages in H as (_ & _ & _ & _ & F).
    rewrite <- (Forall2_length F), range1_length. reflexivity.
  - intros k i l Hk Hl.
    destruct (scheduler_stop _ _ _ _ _ _ _ _ H Hk Hl)
      as (v & st & Hv & Hst & Nm & _ & S1).
    exists v, st, (schedule_row v st).
    split; [exact Hv|]. split; [exact Hst|]. split.
    + unfold get_schedule_df.
      apply (flat_map_nth_const _ _ _ Len _ _ v); [exact Hv|].
      rewrite nth_error_map, Hst. reflexivity.
    + destruct S1 as (_ & S2 & S3 & S4 & S5 & S6).
      unfold schedule_row; cbn. auto 12.
Qed.

Lemma schedule_table_rows_witness :
  List.length (get_schedule_df scheduler_two_legs) = 6%nat /\
  exists row,
    nth_error (get_schedule_df scheduler_two_legs) 5 = Some row /\
    row_ship row = "Ship_3"%string /\ row_leg row = "B-C"%string /\
    row_departure row = Calendar.mkDate 2024 4 16.
Proof.
  destruct (schedule_table_rows route_two_legs river_start 3 (3 # 2)
                                scheduler_two_legs) as [Len Rows].
  - vm_compute; reflexivity.
  - split; [exact Len|].
    destruct (Rows 3 1%nat (mkLeg "B-C" "PortB" "PortC" 4 (1 # 2)))
      as (v & st & row & Hv & Hst & Hrow & Hs & Hl & _ & _ & _ & _ & Hd & _).
    + lia.
    + reflexivity.
    + exists row. split; [exact Hrow|]. split; [exact Hs|]. split; [exact Hl|].
      rewrite Hd. vm_compute in Hv. injection Hv as <-.
      vm_compute in Hst. injection Hst as <-. reflexivity.
Defined.

(** ** The detailed chart *)

Lemma timeline_rows_tasks resource s x :
  In x (map Task (timeline_rows resource s)) <->
  exists v, In v (voyages s) /\ itinerary v <> [] /\ ship_name v = x.
Proof.
  unfold timeline_rows. rewrite in_map_iff. split.
  - intros (row & <- & Hrow). apply in_flat_map in Hrow as (v & Hv & Hrow).
    apply in_map_iff in Hrow as (st & <- & Hst).
    exists v. split; [exact Hv|]. split; [|reflexivity].
    intros E. rewrite E in Hst. contradiction.
  - intros (v & Hv & NE & <-).
    destruct (itinerary v) as [|st rest] eqn:E; [congruence|].
    exists (mkTimeline (ship_name v) (departure st) (operation_end st)
                       resource (ship_id v)).
    split; [reflexivity|]. apply in_flat_map. exists v. split; [exact Hv|].
    rewrite E. left; reflexivity.
Qed.

Lemma scheduler_tasks resource r start n d s x :
  VoyageScheduler_init r start n d = Ok s -> legs r <> [] ->
  (In x (map Task (timeline_rows resource s)) <->
   exists k, 1 <= k <= n /\ x = ship_label k).
Proof.
  intros H L. rewrite timeline_rows_tasks. split.
  - intros (v & Hv & _ & <-).
    pose proof H as H'. apply scheduler_voyages in H' as (_ & _ & _ & _ & F).
    destruct (Forall2_In_r _ _ _ F _ Hv) as (k & Hk & G).
    apply range1_In in Hk.
    apply generate_voyage_identity in G as (_ & Nm & _). eauto.
  - intros (k & Hk & ->).
    destruct (legs r) as [|l0 ls] eqn:El; [congruence|].
    destruct (scheduler_stop r start n d s k 0%nat l0 H Hk)
      as (v & st & Hv & Hst & Nm & _); [rewrite El; reflexivity|].
    exists v. split; [eapply nth_error_In; eauto|]. split; [|exact Nm].
    intros E. rewrite E in Hst. discriminate.
Qed.

Lemma timeline_rows_length resource r start n d s :
  VoyageScheduler_init r start n d = Ok s ->
  List.length (timeline_rows resource s)
  = (Z.to_nat n * List.length (legs r))%nat.
Proof.
  intros H. unfold timeline_rows.
  rewrite (flat_map_length_const _ (List.length (legs r))).
  - apply scheduler_voyages in H as (_ & _ & _ & _ & F).
    rewrite <- (Forall2_length F), range1_length. reflexivity.
  - intros v Hv. rewrite length_map.
    apply (scheduler_itinerary_length _ _ _ _ _ _ H Hv).
Qed.

Lemma ship_label_inj a b : ship_label a = ship_label b -> a = b.
Proof.
  unfold ship_label. intros E. apply str_int_inj. simpl in E. congruence.
Qed.

(** The detailed chart of two schedulers built over routes that have
    legs.  Without any vessel the data frame is empty and reading its
    column ["Task"] raises [KeyError].  Otherwise the data frame has one
    row for every stop of both fleets, and since a river vessel and a sea
    vessel with the same number have the same name, the height counts as
    many names as the larger fleet has vessels, not as both fleets have
    together. *)
Theorem gantt_detailed_built r1 start1 n1 d1 river r2 start2 n2 d2 sea :
  VoyageScheduler_init r1 start1 n1 d1 = Ok river ->
  VoyageScheduler_init r2 start2 n2 d2 = Ok sea ->
  legs r1 <> [] -> legs r2 <> [] ->
  (n1 <= 0 -> n2 <= 0 ->
   create_gantt_detailed river sea = inl (KeyError "Task")) /\
  (1 <= n1 \/ 1 <= n2 ->
   create_gantt_detailed river sea
   = inr (timeline_rows "River" river ++ timeline_rows "Sea" sea,
          400 + Z.max n1 n2 * 15) /\
   List.length (timeline_rows "River" river ++ timeline_rows "Sea" sea)
   = (Z.to_nat n1 * List.length (legs r1)
      + Z.to_nat n2 * List.length (legs r2))%nat).
Proof.
  intros H1 H2 L1 L2.
  pose proof (timeline_rows_length "River" _ _ _ _ _ H1) as Len1.
  pose proof (timeline_rows_length "Sea" _ _ _ _ _ H2) as Len2.
  split.
  - intros N1 N2. unfold create_gantt_detailed.
    replace (Z.to_nat n1) with 0%nat in Len1 by lia.
    replace (Z.to_nat n2) with 0%nat in Len2 by lia.
    destruct (timeline_rows "River" river); [|discriminate].
    destruct (timeline_rows "Sea" sea); [reflexivity | discriminate].
  - intros N. split; [|now rewrite length_app, Len1, Len2].
    unfold create_gantt_detailed.
    set (rows := timeline_rows "River" river ++ timeline_rows "Sea" sea).
    assert (NE : rows <> []).
    { intros E. apply (f_equal (@List.length _)) in E. unfold rows in E.
      rewrite length_app, Len1, Len2 in E. simpl in E.
      destruct (legs r1); [congruence|]. destruct (legs r2); [congruence|].
      simpl in E. lia. }
    assert (C : count_distinct (map Task rows) = Z.max n1 n2).
    { unfold count_distinct.
      assert (P : Permutation (nodup string_dec (map Task rows))
                              (map ship_label (range1 (Z.max n1 n2)))).
      { apply NoDup_Permutation.
        - apply NoDup_nodup.
        - apply NoDup_map_injective; [apply ship_label_inj | apply range1_NoDup].
        - intros x. rewrite nodup_In. unfold rows. rewrite map_app, in_app_iff.
          rewrite (scheduler_tasks "River" _ _ _ _ _ x H1 L1).
          rewrite (scheduler_tasks "Sea" _ _ _ _ _ x H2 L2).
          rewrite in_map_iff. split.
          + intros [(k & Hk & ->)|(k & Hk & ->)]; exists k;
              (split; [reflexivity | apply range1_In; lia]).
          + intros (k & <- & Hk). apply range1_In in Hk.
            destruct (Z_le_gt_dec k n1); [left | right]; exists k;
              (split; [lia | reflexivity]). }
      rewrite (Permutation_length P), length_map, range1_length. lia. }
    rewrite C. destruct rows; [congruence | reflexivity].
Qed.

Lemma gantt_detailed_built_witness :
  create_gantt_detailed river_scheduler_default sea_scheduler_default
  = inr (timeline_rows "River" river_scheduler_default
         ++ timeline_rows "Sea" sea_scheduler_default, 460) /\
  List.length (timeline_rows "River" river_scheduler_default
               ++ timeline_rows "Sea" sea_scheduler_default) = 7%nat.
Proof.
  apply (gantt_detailed_built route_river river_start 3 1
                              river_scheduler_default
                              route_sea sea_start 4 1 sea_scheduler_default).
  - vm_compute; reflexivity.
  - vm_compute; reflexivity.
  - discriminate.
  - discriminate.
  - left; lia.
Defined.

(** ** The fleet chart *)

Lemma Ok_inj {A : Type} (a b : A) : Ok a = Ok b -> a = b.
Proof. intros H; now injection H. Qed.

Lemma last_char_Ok s : s <> EmptyString -> exists c, last_char s = Ok c.
Proof.
  intros NE. unfold last_char. apply last_item_nonempty.
  destruct s; [congruence | discriminate].
Qed.

Lemma last_char_Raise s e :
  last_char s = Raise e -> e = IndexError /\ s = EmptyString.
Proof.
  intros H. destruct s as [|c s]; [injection H as <-; auto|].
  destruct (last_char_Ok (String c s)) as [c' Hc']; [discriminate|].
  congruence.
Qed.

Lemma stop_bar_spec color i y v st b :
  stop_bar color i y v st = Ok b -> bar_of color i y v st b.
Proof.
  unfold stop_bar, bar_of. intros H. inv_bind H. subst b; cbn.
  unfold Datetime.sub. repeat split; auto. lia.
Qed.

Lemma stop_bar_Ok color i y v st :
  port_from st <> EmptyString -> port_to st <> EmptyString ->
  exists b, stop_bar color i y v st = Ok b.
Proof.
  intros N1 N2. unfold stop_bar.
  destruct (last_char_Ok _ N1) as [c1 ->].
  destruct (last_char_Ok _ N2) as [c2 ->]. eexists; reflexivity.
Qed.

Lemma stop_bar_Raise color i y v st e :
  stop_bar color i y v st = Raise e ->
  e = IndexError /\ (port_from st = EmptyString \/ port_to st = EmptyString).
Proof.
  unfold stop_bar. intros H.
  apply bind_Raise in H as [H | (c1 & _ & H)].
  - apply last_char_Raise in H as [-> E]. auto.
  - apply bind_Raise in H as [H | (c2 & _ & H)]; [|discriminate].
    apply last_char_Raise in H as [-> E]. auto.
Qed.

Lemma fold_fleet color vs : forall a y labels traces st',
  fold_result (fleet_step color)
              (combine (map Z.of_nat (seq a (List.length vs))) vs)
              (y, labels, traces) = Ok st' ->
  exists bars,
    st' = (y + Z.of_nat (List.length vs),
           labels ++ map ship_name vs, traces ++ bars) /\
    fleet_bars color (Z.of_nat a) y vs bars.
Proof.
  induction vs as [|v vs IH]; intros a y labels traces st' H.
  - cbn in H. injection H as <-. exists []. cbn.
    rewrite Z.add_0_r, !app_nil_r. auto.
  - cbn [List.length seq map combine fold_result] in H.
    apply bind_Ok in H as (s1 & S1 & H).
    unfold fleet_step in S1. inv_bind S1. subst s1.
    apply IH in H as (bars & -> & FB).
    exists (a0 ++ bars). split.
    + rewrite <- !app_assoc. cbn [List.length map app].
      do 2 f_equal. lia.
    + cbn [fleet_bars]. exists a0, bars. split; [reflexivity|]. split.
      * apply for_each_Ok in Ha. eapply Forall2_impl; [|exact Ha].
        intros st b. apply stop_bar_spec.
      * replace (Z.of_nat a + 1) with (Z.of_nat (S a)) by lia. exact FB.
Qed.

Lemma fold_fleet_total color vs : forall a st,
  (forall v s0, In v vs -> In s0 (itinerary v) ->
                port_from s0 <> EmptyString /\ port_to s0 <> EmptyString) ->
  exists st',
    fold_result (fleet_step color)
                (combine (map Z.of_nat (seq a (List.length vs))) vs) st
    = Ok st'.
Proof.
  induction vs as [|v vs IH]; intros a [[y labels] traces] N.
  - eexists; reflexivity.
  - cbn [List.length seq map combine fold_result]. unfold fleet_step at 1.
    destruct (for_each_total (stop_bar color (Z.of_nat a) y v) (itinerary v))
      as [bars Hb].
    { intros s0 Hs0. destruct (N v s0 (or_introl eq_refl) Hs0).
      now apply stop_bar_Ok. }
    rewrite Hb. cbn [bind]. apply IH.
    intros v' s0 Hv'. apply N. right; exact Hv'.
Qed.

Lemma fold_fleet_Raise color vs : forall a st e,
  fold_result (fleet_step color)
              (combine (map Z.of_nat (seq a (List.length vs))) vs) st
  = Raise e ->
  e = IndexError /\
  exists v s0, In v vs /\ In s0 (itinerary v) /\
               (port_from s0 = EmptyString \/ port_to s0 = EmptyString).
Proof.
  induction vs as [|v vs IH]; intros a [[y labels] traces] e H.
  - discriminate.
  - cbn [List.length seq map combine fold_result] in H.
    apply bind_Raise in H as [H | (s1 & _ & H)].
    + unfold fleet_step in H.
      apply bind_Raise in H as [H | (bars & _ & H)]; [|discriminate].
      apply for_each_Raise in H as (s0 & Hs0 & H).
      apply stop_bar_Raise in H as [-> E].
      split; [reflexivity|]. exists v, s0. simpl. auto.
    + apply IH in H as (-> & v' & s0 & Hv' & Hs0 & E).
      split; [reflexivity|]. exists v', s0. simpl. auto.
Qed.

(** The fleet chart, when it is built: one bar for every stop, first the
    river fleet and then the sea fleet, every voyage on a line of its own
    (the river voyages on lines 0, 1, ..., the sea voyages on the lines
    that follow), each bar running from the stop's departure to the end of
    its operation; one tick label for every voyage, and a height of 400
    plus 15 for every voyage. *)
Theorem gantt_chart_bars river sea fig :
  create_gantt_chart river sea = Ok fig ->
  exists bars_river bars_sea,
    fig_bars fig = bars_river ++ bars_sea /\
    fleet_bars RIVER_COLOR 0 0 (voyages river) bars_river /\
    fleet_bars SEA_COLOR 0 (Z.of_nat (List.length (voyages river)))
               (voyages sea) bars_sea /\
    fig_ticktext fig
    = map ship_name (voyages river) ++ map ship_name (voyages sea) /\
    fig_tickvals fig
    = map Z.of_nat (seq 0 (List.length (voyages river)
                           + List.length (voyages sea))) /\
    fig_height fig
    = 400 + (Z.of_nat (List.length (voyages river))
             + Z.of_nat (List.length (voyages sea))) * 15.
Proof.
  unfold create_gantt_chart, enumerate. intros H.
  apply bind_Ok in H as (st1 & S1 & H).
  apply (fold_fleet RIVER_COLOR (voyages river) 0%nat) in S1
    as (br & -> & FR).
  apply bind_Ok in H as (st2 & S2 & H).
  apply (fold_fleet SEA_COLOR (voyages sea) 0%nat) in S2 as (bs & -> & FS).
  cbv beta iota zeta in H. apply Ok_inj in H. subst fig.
  cbn [fig_bars fig_ticktext fig_tickvals fig_height].
  exists br, bs. cbn [app]. rewrite !length_app, !length_map.
  repeat split; auto. lia.
Qed.

Lemma gantt_chart_bars_witness :
  exists fig bars_river bars_sea,
    create_gantt_chart river_scheduler_default sea_scheduler_tie = Ok fig /\
    fig_bars fig = bars_river ++ bars_sea /\
    fleet_bars RIVER_COLOR 0 0 (voyages river_scheduler_default) bars_river /\
    fleet_bars SEA_COLOR 0 3 (voyages sea_scheduler_tie) bars_sea /\
    fig_height fig = 490.
Proof.
  destruct (create_gantt_chart river_scheduler_default sea_scheduler_tie)
    as [fig|e] eqn:E; [|vm_compute in E; discriminate].
  destruct (gantt_chart_bars river_scheduler_default sea_scheduler_tie fig E)
    as (br & bs & B & FR & FS & _ & _ & Hh).
  exists fig, br, bs. repeat split; auto.
Defined.

(** The fleet chart is built when no stop has a port with an empty name;
    when its construction fails it is with [IndexError], and some stop of
    some voyage has a port whose name is empty, the label of a bar being
    made of the last character of each name. *)
Theorem gantt_chart_outcome river sea :
  ((forall v st, In v (voyages river ++ voyages sea) -> In st (itinerary v) ->
      port_from st <> EmptyString /\ port_to st <> EmptyString) ->
   exists fig, create_gantt_chart river sea = Ok fig) /\
  (forall e, create_gantt_chart river sea = Raise e ->
     e = IndexError /\
     exists v st, In v (voyages river ++ voyages sea) /\ In st (itinerary v) /\
                  (port_from st = EmptyString \/ port_to st = EmptyString)).
Proof.
  split.
  - intros N. unfold create_gantt_chart, enumerate.
    destruct (fold_fleet_total RIVER_COLOR (voyages river) 0%nat (0, [], []))
      as [st1 S1].
    { intros v s0 Hv. apply N. apply in_or_app; left; exact Hv. }
    rewrite S1. cbn [bind].
    destruct (fold_fleet_total SEA_COLOR (voyages sea) 0%nat st1) as [st2 S2].
    { intros v s0 Hv. apply N. apply in_or_app; right; exact Hv. }
    rewrite S2. cbn [bind]. destruct st2 as [[y labels] traces].
    eexists; reflexivity.
  - unfold create_gantt_chart, enumerate. intros e H.
    apply bind_Raise in H as [H | (st1 & _ & H)].
    + apply fold_fleet_Raise in H as (-> & v & s0 & Hv & Hs0 & E).
      split; [reflexivity|]. exists v, s0.
      split; [apply in_or_app; left; exact Hv | auto].
    + apply bind_Raise in H as [H | (st2 & _ & H)].
      * apply fold_fleet_Raise in H as (-> & v & s0 & Hv & Hs0 & E).
        split; [reflexivity|]. exists v, s0.
        split; [apply in_or_app; right; exact Hv | auto].
      * destruct st2 as [[y labels] traces]. discriminate.
Qed.

Lemma gantt_chart_outcome_witness :
  exists fig,
    create_gantt_chart river_scheduler_default sea_scheduler_default = Ok fig.
Proof.
  apply (gantt_chart_outcome river_scheduler_default sea_scheduler_default).
  intros v st Hv Hst. simpl in Hv.
  repeat (destruct Hv as [<-|Hv];
          [simpl in Hst; destruct Hst as [<-|[]]; split; discriminate|]).
  contradiction.
Defined.

(* ================================================================== *)
(** * When a scheduler is built *)

Lemma round_half_even_bounds (q : Q) :
  Qnum q / Z.pos (Qden q) <= Datetime.round_half_even q
  <= Qnum q / Z.pos (Qden q) + 1.
Proof.
  unfold Datetime.round_half_even.
  destruct (_ ?= _); [destruct (Z.even _)|..]; lia.
Qed.

Lemma round_half_even_monotone (q q' : Q) :
  (q <= q')%Q -> Datetime.round_half_even q <= Datetime.round_half_even q'.
Proof.
  destruct q as [n d], q' as [n' d']. unfold Qle. cbn [Qnum Qden]. intros H.
  pose proof (round_half_even_bounds (n # d)) as B.
  pose proof (round_half_even_bounds (n' # d')) as B'.
  cbn [Qnum Qden] in B, B'.
  pose proof (Z.div_mod n (Z.pos d) ltac:(discriminate)) as E.
  pose proof (Z.mod_pos_bound n (Z.pos d) ltac:(reflexivity)) as R.
  pose proof (Z.div_mod n' (Z.pos d') ltac:(discriminate)) as E'.
  pose proof (Z.mod_pos_bound n' (Z.pos d') ltac:(reflexivity)) as R'.
  assert (F : n / Z.pos d <= n' / Z.pos d').
  { apply Z.div_le_lower_bound; [reflexivity|].
    assert (Z.pos d * (Z.pos d' * (n / Z.pos d)) <= Z.pos d * n') by nia.
    nia. }
  destruct (Z.eq_dec (n / Z.pos d) (n' / Z.pos d')) as [Ef|Nf]; [|lia].
  clear B B'. unfold Datetime.round_half_even. cbn [Qnum Qden].
  rewrite <- Ef.
  set (f := n / Z.pos d) in *. set (r := n mod Z.pos d) in *.
  set (r' := n' mod Z.pos d') in *.
  assert (Hr : r * Z.pos d' <= r' * Z.pos d) by nia.
  destruct (Z.compare_spec (2 * r) (Z.pos d)) as [C|C|C];
    destruct (Z.compare_spec (2 * r') (Z.pos d')) as [C'|C'|C'];
    destruct (Z.even f); try lia; exfalso; nia.
Qed.

Lemma timedelta_days_monotone (q q' : Q) td' :
  (0 <= q)%Q -> (q <= q')%Q -> Datetime.timedelta_days q' = Ok td' ->
  exists td, Datetime.timedelta_days q = Ok td /\ 0 <= td <= td'.
Proof.
  intros Hq Hqq'. unfold Datetime.timedelta_days.
  destruct (Datetime.valid_timedelta
              (Datetime.round_half_even (q' * inject_Z Datetime.US_PER_DAY)))
    eqn:V'; [|discriminate].
  intros H; injection H as <-.
  set (u := inject_Z Datetime.US_PER_DAY).
  assert (Hu : (0 <= u)%Q) by (unfold u, Qle; simpl; lia).
  assert (M : Datetime.round_half_even (q * u)
              <= Datetime.round_half_even (q' * u)).
  { apply round_half_even_monotone. now apply Qmult_le_compat_r. }
  assert (P : 0 <= Datetime.round_half_even (q * u)).
  { apply round_half_even_nonneg.
    unfold Qle in Hq. unfold u. simpl in *. unfold Datetime.US_PER_DAY. lia. }
  assert (V : Datetime.valid_timedelta (Datetime.round_half_even (q * u))
              = true).
  { unfold Datetime.valid_timedelta in *.
    apply andb_true_iff in V' as [_ V2]. apply Z.leb_le in V2.
    apply andb_true_iff. split; apply Z.leb_le.
    - unfold Datetime.days.
      assert (0 <= Datetime.round_half_even (q * u) / Datetime.US_PER_DAY)
        by (apply Z.div_pos; [exact P | reflexivity]).
      unfold Datetime.MAX_DELTA_DAYS. lia.
    - etransitivity; [|exact V2]. unfold Datetime.days.
      apply Z.div_le_mono; [reflexivity | exact M]. }
  rewrite V. eexists. split; [reflexivity | lia].
Qed.

Lemma add_earlier t t' td :
  0 <= t -> t <= t' -> 0 <= td ->
  Datetime.valid_datetime (t' + td) = true ->
  Datetime.add t td = Ok (t + td).
Proof.
  intros H0 Ht Htd V. unfold Datetime.add, Datetime.valid_datetime in *.
  apply andb_true_iff in V as [_ V2]. apply Z.ltb_lt in V2.
  replace ((0 <=? t + td) && (t + td <? _)) with true; [reflexivity|].
  symmetry. apply andb_true_iff. split; [apply Z.leb_le | apply Z.ltb_lt]; lia.
Qed.

Lemma walk_legs_earlier ls : forall i t t' w',
  Forall (fun l => 0 <= duration_days l /\ 0 <= operation_days l)%Q ls ->
  0 <= t -> t <= t' ->
  walk_legs i t' ls = Ok w' -> exists w, walk_legs i t ls = Ok w.
Proof.
  induction ls as [|l ls IH]; intros i t t' w' N H0 Ht H; simpl in *.
  - eexists; reflexivity.
  - inversion N as [|? ? [N1 N2] N']; subst. inv_bind H.
    pose proof (timedelta_days_nonneg _ _ N1 Ha) as P1.
    pose proof (timedelta_days_nonneg _ _ N2 Ha1) as P2.
    apply add_Ok in Ha0 as [-> V1], Ha2 as [-> V2].
    rewrite Ha. cbn [bind].
    rewrite (add_earlier t t' a H0 Ht P1 V1). cbn [bind].
    rewrite Ha1. cbn [bind].
    rewrite (add_earlier (t + a) (t' + a) a1) by (lia || assumption).
    cbn [bind].
    destruct (IH (i + 1) (t + a + a1) (t' + a + a1) a3 N') as [w Hw];
      [lia | lia | exact Ha3|].
    rewrite Hw. cbn [bind]. eexists; reflexivity.
Qed.

(** With a start date in range, an interval and durations that are not
    negative, the last vessel decides: the scheduler is built as soon as
    the voyage of vessel [n] can be computed, since every earlier vessel
    leaves and arrives no later; an [OverflowError] can only come from
    dates that the last vessel would reach as well. *)
Theorem scheduler_built_by_last_vessel r start n d v :
  Datetime.valid_datetime start = true ->
  (0 <= d)%Q ->
  Forall (fun l => 0 <= duration_days l /\ 0 <= operation_days l)%Q (legs r) ->
  generate_voyage r start d n = Ok v ->
  exists s, VoyageScheduler_init r start n d = Ok s /\
            List.length (voyages s) = Z.to_nat n.
Proof.
  intros Vs Hd N G.
  apply generate_voyage_inv in G as (tdn & Tn & Vn & C).
  apply calculate_voyage_inv in C as (wn & Wn & _).
  assert (S0 : 0 <= start).
  { unfold Datetime.valid_datetime in Vs.
    apply andb_true_iff in Vs as [Vs _]. now apply Z.leb_le. }
  destruct (for_each_total (generate_voyage r start d) (range1 n)) as [vs Hvs].
  { intros k Hk. apply range1_In in Hk.
    destruct (timedelta_days_monotone (inject_Z (k - 1) * d)
                                      (inject_Z (n - 1) * d) tdn)
      as (td & T & B); [| |exact Tn|].
    - apply Qmult_le_0_compat; [|exact Hd].
      unfold Qle; simpl. lia.
    - apply Qmult_le_compat_r; [|exact Hd].
      rewrite <- Zle_Qle. lia.
    - unfold generate_voyage. rewrite T. cbn [bind].
      rewrite (add_earlier start (start + (tdn - td)) td);
        [|lia|lia|lia|
         replace (start + (tdn - td) + td) with (start + tdn) by lia;
         exact Vn].
      cbn [bind]. unfold _calculate_voyage.
      destruct (walk_legs_earlier (legs r) 0 (start + td) (start + tdn) wn N)
        as [w Hw]; [lia | lia | exact Wn|].
      rewrite Hw. cbn [bind]. eexists; reflexivity. }
  exists (mkScheduler r start n d vs). split.
  - unfold VoyageScheduler_init, _generate_voyages. rewrite Hvs. reflexivity.
  - cbn [voyages]. rewrite (for_each_length _ _ _ Hvs). apply range1_length.
Qed.

Lemma scheduler_built_by_last_vessel_witness :
  exists s, VoyageScheduler_init route_two_legs river_start 3 (3 # 2) = Ok s /\
            List.length (voyages s) = 3%nat.
Proof.
  apply (scheduler_built_by_last_vessel route_two_legs river_start 3 (3 # 2)
           (nth 2 (voyages scheduler_two_legs) no_voyage)).
  - vm_compute; reflexivity.
  - apply Qle_bool_iff; reflexivity.
  - repeat constructor; apply Qle_bool_iff; reflexivity.
  - vm_compute; reflexivity.
Defined.

(* ================================================================== *)
(** * The tank chart *)

Lemma trace_times cap evs : forall lvl,
  map log_time (trace cap lvl evs) = map ev_time evs.
Proof.
  induction evs as [|e evs IH]; intros lvl; [reflexivity|].
  cbn [trace map]. now rewrite IH.
Qed.

Lemma sorted_times l :
  StronglySorted time_le l -> StronglySorted Z.le (map ev_time l).
Proof.
  induction 1 as [|e l S IH F]; cbn [map]; constructor; [exact IH|].
  rewrite Forall_forall in F |- *. intros t Ht.
  apply in_map_iff in Ht as (e' & <- & He'). apply (F e' He').
Qed.

(** The tank chart of a simulation that was built: with no voyage in
    either fleet the log is empty and reading the column ["time"] raises
    [KeyError]; otherwise the chart has one point for every voyage of both
    fleets, in the order of the log, with times that do not decrease, and
    its horizontal line is at the capacity of the buffer. *)
Theorem tank_chart_outcome cap river sea sim :
  TankSimulation_init cap river sea = Ok sim ->
  (voyages river = [] -> voyages sea = [] ->
   create_tank_chart sim = inl (KeyError "time")) /\
  (voyages river <> [] \/ voyages sea <> [] ->
   exists chart,
     create_tank_chart sim = inr chart /\
     chart_x chart = map log_time (tank_log sim) /\
     chart_y chart = map tank_level (tank_log sim) /\
     chart_customdata chart = map log_action (tank_log sim) /\
     chart_hline chart = cap /\
     List.length (chart_x chart)
     = (List.length (voyages river) + List.length (voyages sea))%nat /\
     StronglySorted Z.le (chart_x chart)).
Proof.
  intros H. pose proof (simulation_log_length _ _ _ _ H) as Len.
  unfold create_tank_chart, get_log_df. split.
  - intros E1 E2. rewrite E1, E2 in Len.
    destruct (tank_log sim); [reflexivity | discriminate].
  - intros NE. destruct (tank_log sim) as [|en log] eqn:El.
    { exfalso. simpl in Len.
      destruct (voyages river), (voyages sea); try discriminate.
      destruct NE; congruence. }
    eexists. split; [reflexivity|]. cbn [chart_x chart_y chart_customdata
                                         chart_hline].
    do 3 (split; [reflexivity|]).
    apply simulation_inv in H as (evs & B & ->).
    cbn [tank_capacity tank_log] in *. split; [reflexivity|].
    split; [rewrite length_map; exact Len|].
    rewrite <- El, trace_times. apply sorted_times, sort_events_sorted.
Qed.

Lemma tank_chart_outcome_witness :
  exists chart,
    create_tank_chart tank_sim_tie = inr chart /\
    chart_x chart = map log_time (tank_log tank_sim_tie) /\
    chart_y chart = map tank_level (tank_log tank_sim_tie) /\
    chart_customdata chart = map log_action (tank_log tank_sim_tie) /\
    chart_hline chart = 100%Q /\
    List.length (chart_x chart) = 6%nat /\
    StronglySorted Z.le (chart_x chart).
Proof.
  apply (tank_chart_outcome 100 river_scheduler_default sea_scheduler_tie
                            tank_sim_tie).
  - vm_compute; reflexivity.
  - left; discriminate.
Defined.
